(** * Aliasing demo: the hand-written DFT and the plot controller

    A shallow embedding of [src/Aliasing/aliasing.py].

    Numbers.  The program computes with Python numbers and numpy
    [float64]/[complex] arrays.  They are modelled by the real numbers
    of the Standard Library ([R], with [sin], [cos], [exp], [PI]) and by
    pairs of reals for complex values: every arithmetic operation is
    exact, and the narrowing of the spectrum to [complex64] is the
    identity.  Unless they say otherwise, the statements below are
    statements about this exact arithmetic.

    Where rounding decides more than the last digits of a value, namely
    the number of elements [np.arange] returns for a step that is not a
    whole number, the module [Double] computes the same call in IEEE
    double precision, and the statements that depend on the count say
    on which inputs the two readings agree.

    numpy.  [np.arange], [np.zeros], [np.sum], [np.exp], [np.sin],
    [np.linspace] and array broadcasting are library code; they are
    modelled on lists from their documented meaning.

    Effects.  [compute_dft] is a function that can raise (Python's
    [1/duree]); the methods of [Aliasing_Window] mutate the object, so
    they are state transformers that can raise, the state surviving the
    exception as it does in Python. *)

From Stdlib Require Import Reals Lra Lia ZArith List String.
From Stdlib Require Uint63 PrimFloat SpecFloat FloatOps.
From stdpp Require Import base list.
Import ListNotations.

Open Scope R_scope.

(** ** Exceptions and results *)

(** [ZeroDivisionError], [IndexError] and [AttributeError] are the
    exceptions the statements of the source can raise.  [InvalidInput]
    and [ExportError] are the two error kinds of the specification's
    taxonomy; no statement of the source raises them.  [Raised name] is
    an exception of a library, of the class of that name. *)
Inductive exn : Type :=
  | ZeroDivisionError
  | IndexError
  | AttributeError
  | InvalidInput
  | ExportError
  | Raised (name : string).

Inductive result (A : Type) : Type :=
  | Ok (a : A)
  | Err (e : exn).
Arguments Ok {A} a.
Arguments Err {A} e.

Definition rbind {A B} (r : result A) (k : A -> result B) : result B :=
  match r with
  | Ok a => k a
  | Err e => Err e
  end.

Definition raises {A} (r : result A) : Prop := exists e, r = Err e.

(** Python's true division [a / b] on numbers. *)
Definition py_div (a b : R) : result R :=
  if Req_dec_T b 0 then Err ZeroDivisionError else Ok (a / b).

(** ** Complex numbers *)

Record C : Type := mkC { Re : R; Im : R }.

Definition RtoC (x : R) : C := mkC x 0.
Definition C0 : C := RtoC 0.
(** The literal [1j]. *)
Definition Cj : C := mkC 0 1.

Definition Cadd (z w : C) : C := mkC (Re z + Re w) (Im z + Im w).
Definition Copp (z : C) : C := mkC (- Re z) (- Im z).
Definition Cmul (z w : C) : C :=
  mkC (Re z * Re w - Im z * Im w) (Re z * Im w + Im z * Re w).
Definition Cdiv (z w : C) : C :=
  let d := Re w * Re w + Im w * Im w in
  mkC ((Re z * Re w + Im z * Im w) / d) ((Im z * Re w - Re z * Im w) / d).
(** [np.exp] on a complex argument. *)
Definition Cexp (z : C) : C :=
  mkC (exp (Re z) * cos (Im z)) (exp (Re z) * sin (Im z)).
(** [abs] on a complex value. *)
Definition Cabs (z : C) : R := sqrt (Re z * Re z + Im z * Im z).

(** ** numpy on lists *)

(** Ceiling of a real number. *)
Definition Rceil (x : R) : Z := (- Int_part (- x))%Z.

(** [np.arange(start, stop, step)] on floats, read in exact arithmetic:
    [ceil((stop-start)/step)] values (none when that is not positive),
    the [i]-th being [start + i*step].  numpy takes the ceiling of the
    rounded quotient: [Double.np_arange] below is the same call in
    double precision, and the two counts can differ by one where the
    exact quotient is at or next to a whole number. *)
Definition arange_len (start stop step : R) : nat :=
  Z.to_nat (Rceil ((stop - start) / step)).

Definition np_arange (start stop step : R) : list R :=
  map (fun i : nat => start + INR i * step) (seq 0 (arange_len start stop step)).

(** [np.arange(0, n)] on an integer [n]: the indices [0 .. n-1]. *)
Definition np_arange_int (n : nat) : list nat := seq 0 n.

(** [np.zeros(shape, dtype=complex)]. *)
Definition np_zeros (n : nat) : list C := replicate n C0.

(** [np.sum] of a complex array. *)
Definition np_sum (l : list C) : C := foldr Cadd C0 l.

(** [enumerate]. *)
Definition enumerate {A} (l : list A) : list (nat * A) :=
  zip (seq 0 (length l)) l.

(** ** The DFT engine *)

(** The array [np.exp(-1j*2*np.pi*k*idxs/N)], evaluated as Python does,
    left to right. *)
Definition twiddles (k N : nat) (idxs : list nat) : list C :=
  let c := Cmul (Cmul (Cmul (Copp Cj) (RtoC 2)) (RtoC PI)) (RtoC (INR k)) in
  map (fun n : nat => Cexp (Cdiv (Cmul c (RtoC (INR n))) (RtoC (INR N)))) idxs.

(** [np.sum(sig * np.exp(-1j*2*np.pi*k*idxs/N))]: the real samples are
    promoted to complex and multiplied element by element. *)
Definition dft_bin (sig : list R) (k : nat) : C :=
  let N := length sig in
  let idxs := np_arange_int N in
  np_sum (zip_with (fun s e => Cmul (RtoC s) e) sig (twiddles k N idxs)).

(** The loop [for k, f in enumerate(freqs): tf[k] = ...]. *)
Definition dft_loop (sig : list R) (freqs : list R) (tf : list C) : list C :=
  foldl (fun (tf : list C) (kf : nat * R) => <[fst kf := dft_bin sig (fst kf)]> tf)
        tf (enumerate freqs).

Definition compute_dft (fs duree : R) (sig : list R) : result (list R * list C) :=
  rbind (py_div 1 duree) (fun step =>
    let freqs := np_arange 0 (3 * fs) step in
    let tf := np_zeros (length freqs) in
    Ok (freqs, dft_loop sig freqs tf)).

(** ** The controller's state *)

(** What has been drawn on a matplotlib axes, in call order.  [dashes]
    is [None] when the call does not pass it, which draws a solid
    line. *)
Inductive draw : Type :=
  | Plot (xs ys : list R) (fmt : option string)
  | Axvline (x : R) (color : string) (dashes : option (nat * nat)) (linewidth : nat)
  | FillBetween (xs ys : list R) (y2 : R)
  | SetXlim (lo hi : R)
  | SetTitle (s : string)
  | SetXlabel (s : string)
  | SetYlabel (s : string).

(** The [Slider] widget: its construction arguments and current value. *)
Record Slider : Type := mkSlider {
  valmin : R;
  valmax : R;
  valinit : R;
  valstep : R;
  val : R
}.

(** The attributes of an [Aliasing_Window] object.  [td] and [fd] are
    the two plot axes; [freq_slider] does not exist before
    [init_sliders] has run. *)
Record Aliasing_Window : Type := mkWindow {
  fs : R;
  freq : R;
  duree : R;
  f_min : R;
  f_max : R;
  td : list draw;
  fd : list draw;
  freq_slider : option Slider
}.

Definition set_freq (v : R) (w : Aliasing_Window) : Aliasing_Window :=
  mkWindow (fs w) v (duree w) (f_min w) (f_max w) (td w) (fd w) (freq_slider w).
Definition set_td (l : list draw) (w : Aliasing_Window) : Aliasing_Window :=
  mkWindow (fs w) (freq w) (duree w) (f_min w) (f_max w) l (fd w) (freq_slider w).
Definition set_fd (l : list draw) (w : Aliasing_Window) : Aliasing_Window :=
  mkWindow (fs w) (freq w) (duree w) (f_min w) (f_max w) (td w) l (freq_slider w).
Definition set_freq_slider (s : Slider) (w : Aliasing_Window) : Aliasing_Window :=
  mkWindow (fs w) (freq w) (duree w) (f_min w) (f_max w) (td w) (fd w) (Some s).

(** ** Methods as state transformers that can raise *)

Module Method.

Definition M (A : Type) : Type := Aliasing_Window -> result A * Aliasing_Window.

Definition ret {A} (a : A) : M A := fun w => (Ok a, w).

Definition bind {A B} (m : M A) (k : A -> M B) : M B :=
  fun w =>
    match m w with
    | (Ok a, w') => k a w'
    | (Err e, w') => (Err e, w')
    end.

(** Reading [self]. *)
Definition self : M Aliasing_Window := fun w => (Ok w, w).
(** An in-place change of [self]. *)
Definition modify (f : Aliasing_Window -> Aliasing_Window) : M unit :=
  fun w => (Ok tt, f w).
(** A computation that does not touch [self]. *)
Definition lift {A} (r : result A) : M A := fun w => (r, w).

(** [for x in l: body(x)]. *)
Fixpoint for_each {A} (l : list A) (body : A -> M unit) : M unit :=
  match l with
  | [] => ret tt
  | x :: l' => bind (body x) (fun _ => for_each l' body)
  end.

End Method.
Import Method.

Declare Scope method_scope.
Delimit Scope method_scope with method.
Notation "x <- m ;; k" := (bind m (fun x => k))
  (at level 100, m at next level, right associativity) : method_scope.
Notation "m ;; k" := (bind m (fun _ => k))
  (at level 100, right associativity) : method_scope.
Open Scope method_scope.

(** Drawing calls on the two axes. *)
Definition td_call (d : draw) : M unit := modify (fun w => set_td (td w ++ [d]) w).
Definition fd_call (d : draw) : M unit := modify (fun w => set_fd (fd w ++ [d]) w).
(** [self.td.clear()] and [self.fd.clear()]. *)
Definition td_clear : M unit := modify (set_td []).
Definition fd_clear : M unit := modify (set_fd []).

(** Indexing an array by an array of indices, [a[idxs]]. *)
Fixpoint take_indices {A} (a : list A) (idxs : list nat) : result (list A) :=
  match idxs with
  | [] => Ok []
  | i :: idxs' =>
      match a !! i with
      | Some x => rbind (take_indices a idxs') (fun r => Ok (x :: r))
      | None => Err IndexError
      end
  end.

(** [range(n)], as Python integers. *)
Definition py_range (n : nat) : list Z := map Z.of_nat (seq 0 n).

(** [np.linspace(a, b)], with its default of 50 points, end point
    included. *)
Definition np_linspace (a b : R) : list R :=
  map (fun i : nat => a + INR i * ((b - a) / 49)) (seq 0 50).

(** ** The methods of [Aliasing_Window] *)

Definition gen_sig : M (list R * list R) :=
  w <- self ;;
  step <- lift (py_div 1 (fs w)) ;;
  let t := np_arange 0 (duree w) step in
  let sig := map (fun x => sin (2 * PI * freq w * x)) t in
  ret (t, sig).

Definition init_time_domain : M unit :=
  w <- self ;;
  step <- lift (py_div 1 (10 * f_max w)) ;;
  let an_t := np_arange 0 (duree w) step in
  let an_sig := map (fun x => sin (2 * PI * freq w * x)) an_t in
  ts <- gen_sig ;;
  td_call (Plot an_t an_sig None) ;;
  td_call (Plot (fst ts) (snd ts) (Some "r+:"%string)) ;;
  td_call (SetTitle "Domaine temporel") ;;
  td_call (SetXlabel "Temps [s]").

Definition init_freq_domain : M unit :=
  ts <- gen_sig ;;
  let sig := snd ts in
  w <- self ;;
  ft <- lift (compute_dft (fs w) (duree w) sig) ;;
  let freqs := fst ft in
  let tf := snd ft in
  fd_call (Plot freqs (map Cabs tf) None) ;;
  let dashes := (1%nat, 1%nat) in
  let width := 2%nat in
  for_each (py_range 4) (fun idx =>
    fd_call (Axvline (IZR (idx - 1) * fs w + freq w) "b" (Some dashes) width) ;;
    fd_call (Axvline (- freq w + IZR (idx + 1) * fs w) "r" (Some dashes) width)) ;;
  fd_call (Axvline (freq w) "b" None width) ;;
  let fill_idxs := np_arange_int (length sig) in
  xs <- lift (take_indices freqs fill_idxs) ;;
  ys <- lift (take_indices tf fill_idxs) ;;
  fd_call (FillBetween xs (map Cabs ys) 0) ;;
  fd_call (SetXlim 0 (3 * fs w)) ;;
  fd_call (SetTitle "Domaine fréquenciel") ;;
  fd_call (SetXlabel "Fréquence [Hz]") ;;
  fd_call (SetYlabel "Amplitude").

Definition update (new_freq : R) : M unit :=
  modify (set_freq new_freq) ;;
  td_clear ;;
  fd_clear ;;
  init_time_domain ;;
  init_freq_domain.

(** [Slider(..., valstep=1)] followed by [on_changed(self.update)]:
    the callback is [update], called by [set_val] below.  The widget
    clips [valinit] into the range and snaps it to the step; both leave
    the value as it is at the one place the call is made, [__init__],
    where [freq] is [f_min], and they are not modelled. *)
Definition init_sliders : M unit :=
  w <- self ;;
  modify (set_freq_slider (mkSlider (f_min w) (f_max w) (freq w) 1 (freq w))).

(** The object a fresh [Aliasing_Window()] starts from, before the
    three [init_*] calls of [__init__]. *)
Definition blank_window : Aliasing_Window :=
  mkWindow 50 1 3 1 150 [] [] None.

Definition __init__ : M unit :=
  init_sliders ;;
  init_time_domain ;;
  init_freq_domain.

(** [self.freq_slider.set_val(v)]: store the value, then call the
    registered callback with it.  The attribute is missing on an object
    whose [init_sliders] has not run. *)
Definition slider_set_val (v : R) : M unit :=
  w <- self ;;
  match freq_slider w with
  | Some s =>
      modify (set_freq_slider (mkSlider (valmin s) (valmax s) (valinit s) (valstep s) v)) ;;
      update v
  | None => lift (Err AttributeError)
  end.

Definition animation_update (new_freq : R) : M unit :=
  slider_set_val new_freq.

(** The frames [animate] hands to [FuncAnimation]. *)
Definition animation_frames (w : Aliasing_Window) : list R :=
  np_linspace (f_min w) (f_max w).

Close Scope method_scope.

(** ** The export *)

(** The state of the output file after the export. *)
Inductive output_file : Type :=
  | NoFile
  | PartialFile
  | CompleteFile.

(** One run of the library call
    [an.save(filename, writer=FFMpegWriter(fps=fps, codec='gif'))]: the
    frames on which it called the animation function, in order, whether
    it returned or raised, and the file it left.  [FuncAnimation],
    [FFMpegWriter] and the encoder are not code of this repository:
    what they do is an input of [animate]. *)
Record save_run : Type := mkSaveRun {
  rendered : list R;
  save_result : result unit;
  file_left : output_file
}.

(** [animate]: the animation is built on [animation_update] and on the
    frames [np.linspace(self.f_min, self.f_max)], and saved.  Nothing
    catches what the animation function or the library raises, and
    nothing touches the file afterwards. *)
Definition animate (filename : string) (fps : Z)
    (an_save : list R -> string -> Z -> save_run) (w : Aliasing_Window)
  : result unit * Aliasing_Window * output_file :=
  let run := an_save (animation_frames w) filename fps in
  (bind (for_each (rendered run) animation_update)
        (fun _ => lift (save_result run)) w,
   file_left run).

(** ** [np.arange] in double precision *)

Module Double.
Import PrimFloat SpecFloat FloatOps.
Local Open Scope float_scope.

(** The ceiling of a double, when it is finite. *)
Definition ceil (x : float) : option Z :=
  match Prim2SF x with
  | S754_zero _ => Some 0%Z
  | S754_finite s m e =>
      let below := (if (0 <=? e)%Z then Z.pos m * 2 ^ e else Z.pos m / 2 ^ (- e))%Z in
      let whole := (if (0 <=? e)%Z then true else (Z.pos m mod 2 ^ (- e) =? 0))%Z in
      Some (if s then (- below)%Z else if whole then below else (below + 1)%Z)
  | _ => None
  end.

(** The double of a natural number (exact below [2^53]). *)
Definition of_nat (n : nat) : float := of_uint63 (Uint63.of_Z (Z.of_nat n)).

(** [np.arange(start, stop, step)] on doubles, as numpy computes it:
    the length is the ceiling of the double quotient
    [(stop - start) / step] (an error when that is not finite, none
    here); the first two elements are [start] and [start + step], and
    the element of index [i] is [start + i*delta] where [delta] is the
    difference of the first two. *)
Definition np_arange (start stop step : float) : option (list float) :=
  match ceil ((stop - start) / step) with
  | Some len =>
      let delta := (start + step) - start in
      Some (map (fun i : nat =>
                   match i with
                   | O => start
                   | S O => start + step
                   | _ => start + of_nat i * delta
                   end)
                (seq 0 (Z.to_nat len)))
  | None => None
  end.

(** Line 75, [np.arange(0, self.duree, 1/self.fs)], and line 17,
    [np.arange(0, 3*fs, 1/duree)], on doubles other than zero. *)
Definition gen_sig_times (fs duree : float) : option (list float) :=
  np_arange 0 duree (1 / fs).
Definition compute_dft_freqs (fs duree : float) : option (list float) :=
  np_arange 0 (3 * fs) (1 / duree).

(** The last element of an array is the stop value. *)
Definition ends_at (l : option (list float)) (stop : float) : bool :=
  match l with
  | Some a =>
      match List.last (map Some a) None with
      | Some x => eqb x stop
      | None => false
      end
  | None => false
  end.

Definition length_of (l : option (list float)) : option nat :=
  match l with
  | Some a => Some (length a)
  | None => None
  end.

End Double.

(** ** Inputs on which rounding does not decide the count *)



(** ** The specification's formulas *)

(** [Csigma n f] is the sum of [f 0], ..., [f (n-1)]. *)
Fixpoint Csigma (n : nat) (f : nat -> C) : C :=
  match n with
  | O => C0
  | S n' => Cadd (Csigma n' f) (f n')
  end.

(** The specification's bin value,
    [X[k] = sum over n from 0 to N-1 of signal[n] * exp(-i*2*pi*k*n/N)]. *)
Definition direct_summation (signal : list R) (k : nat) : C :=
  let N := length signal in
  Csigma N (fun n =>
    Cmul (RtoC (nth n signal 0))
         (Cexp (Cmul (Copp Cj) (RtoC (2 * PI * INR k * INR n / INR N))))).

(** The specification's input contract for the engine. *)
Definition valid_input (sample_rate window_duration : R) (signal : list R) : Prop :=
  0 < sample_rate /\ 0 < window_duration /\ signal <> [].

(** The invariant of a SamplingConfig. *)
Definition valid_config (w : Aliasing_Window) : Prop :=
  0 < fs w /\ 0 < duree w.

(** The specification's AliasingMarkers for a sample rate and a signal
    frequency: [(k-1)*sample_rate + signal_frequency] and
    [-signal_frequency + (k+1)*sample_rate] for [k] in [0..3], and
    [signal_frequency] itself. *)
Definition AliasingMarkers (sample_rate signal_frequency x : R) : Prop :=
  (exists k : Z, (0 <= k <= 3)%Z /\ x = (IZR k - 1) * sample_rate + signal_frequency) \/
  (exists k : Z, (0 <= k <= 3)%Z /\ x = - signal_frequency + (IZR k + 1) * sample_rate) \/
  x = signal_frequency.

(** ** Reading a plot and a run *)

(** The positions of the vertical lines drawn on an axes. *)
Definition axvline_positions (l : list draw) : list R :=
  flat_map (fun d => match d with Axvline x _ _ _ => [x] | _ => [] end) l.

(** The vertical lines drawn solid, that is without [dashes]. *)
Definition solid_axvlines (l : list draw) : list draw :=
  flat_map (fun d => match d with Axvline _ _ None _ => [d] | _ => [] end) l.

(** The sample times and amplitudes [gen_sig] builds from [self]. *)
Definition sample_times (w : Aliasing_Window) : list R :=
  np_arange 0 (duree w) (1 / fs w).
Definition samples (w : Aliasing_Window) : list R :=
  map (fun x => sin (2 * PI * freq w * x)) (sample_times w).

(** The frequency axis and the spectrum [init_freq_domain] gets from
    [compute_dft]. *)
Definition spectrum_freqs (w : Aliasing_Window) : list R :=
  np_arange 0 (3 * fs w) (1 / duree w).
Definition spectrum_tf (w : Aliasing_Window) : list C :=
  dft_loop (samples w) (spectrum_freqs w) (np_zeros (length (spectrum_freqs w))).

(** The calls [init_time_domain] makes on [td] when nothing raises. *)
Definition time_domain_draws (w : Aliasing_Window) : list draw :=
  let an_t := np_arange 0 (duree w) (1 / (10 * f_max w)) in
  [ Plot an_t (map (fun x => sin (2 * PI * freq w * x)) an_t) None;
    Plot (sample_times w) (samples w) (Some "r+:"%string);
    SetTitle "Domaine temporel";
    SetXlabel "Temps [s]" ].

(** The calls [init_freq_domain] makes on [fd] when nothing raises. *)
Definition freq_domain_draws (w : Aliasing_Window) : list draw :=
  let N := length (samples w) in
  [ Plot (spectrum_freqs w) (map Cabs (spectrum_tf w)) None;
    Axvline (IZR (0 - 1) * fs w + freq w) "b" (Some (1, 1)%nat) 2;
    Axvline (- freq w + IZR (0 + 1) * fs w) "r" (Some (1, 1)%nat) 2;
    Axvline (IZR (1 - 1) * fs w + freq w) "b" (Some (1, 1)%nat) 2;
    Axvline (- freq w + IZR (1 + 1) * fs w) "r" (Some (1, 1)%nat) 2;
    Axvline (IZR (2 - 1) * fs w + freq w) "b" (Some (1, 1)%nat) 2;
    Axvline (- freq w + IZR (2 + 1) * fs w) "r" (Some (1, 1)%nat) 2;
    Axvline (IZR (3 - 1) * fs w + freq w) "b" (Some (1, 1)%nat) 2;
    Axvline (- freq w + IZR (3 + 1) * fs w) "r" (Some (1, 1)%nat) 2;
    Axvline (freq w) "b" None 2;
    FillBetween (take N (spectrum_freqs w)) (map Cabs (take N (spectrum_tf w))) 0;
    SetXlim 0 (3 * fs w);
    SetTitle "Domaine fréquenciel";
    SetXlabel "Fréquence [Hz]";
    SetYlabel "Amplitude" ].

(** The object [update v] leaves when nothing raises. *)
Definition updated (v : R) (w : Aliasing_Window) : Aliasing_Window :=
  let w1 := set_freq v w in
  set_fd (freq_domain_draws w1) (set_td (time_domain_draws w1) w1).

(** The object [Aliasing_Window()] returns. *)
Definition initial_window : Aliasing_Window :=
  let w1 := set_freq_slider (mkSlider 1 150 1 1 1) blank_window in
  set_fd (freq_domain_draws w1) (set_td (time_domain_draws w1) w1).

(** Two states with the same sampling rate, window and frequency
    range. *)
Definition same_rates (w w' : Aliasing_Window) : Prop :=
  fs w' = fs w /\ duree w' = duree w /\ f_min w' = f_min w /\ f_max w' = f_max w.

(** Two states with the same SamplingConfig and frequency range. *)
Definition same_config (w w' : Aliasing_Window) : Prop :=
  same_rates w w' /\ freq w' = freq w.

(** A method keeps a relation between the state it starts from and the
    state it leaves, whether it returns or raises. *)
Definition keeps {A} (rel : Aliasing_Window -> Aliasing_Window -> Prop) (m : M A) : Prop :=
  forall w, rel w (snd (m w)).

(** The states of the controller: the one [Aliasing_Window()] builds,
    and those the two event sources lead to, the slider calling [update]
    and the animation calling [animation_update]. *)
Inductive reachable : Aliasing_Window -> Prop :=
  | reach_init (w : Aliasing_Window) :
      __init__ blank_window = (Ok tt, w) -> reachable w
  | reach_slider (w w' : Aliasing_Window) (v : R) (r : result unit) :
      reachable w -> update v w = (r, w') -> reachable w'
  | reach_animation (w w' : Aliasing_Window) (v : R) (r : result unit) :
      reachable w -> animation_update v w = (r, w') -> reachable w'.

(** Generating the signal twice in a row. *)
Definition gen_sig_twice : M ((list R * list R) * (list R * list R)) :=
  bind gen_sig (fun a => bind gen_sig (fun b => ret (a, b))).

(** ** Vocabulary for further properties *)

(** The complex conjugate. *)
Definition Cconj (z : C) : C := mkC (Re z) (- Im z).

(** [Rsigma n f] is the sum of [f 0], ..., [f (n-1)]. *)
Fixpoint Rsigma (n : nat) (f : nat -> R) : R :=
  match n with
  | O => 0
  | S n' => Rsigma n' f + f n'
  end.

(** The sum of a list of reals, and the sum of their absolute values. *)
Definition Rsum (l : list R) : R := foldr Rplus 0 l.
Definition Rabs_sum (l : list R) : R := foldr (fun x acc => Rabs x + acc) 0 l.

(** * Properties *)

(** ** Complex arithmetic *)

Lemma C_eq (z w : C) : Re z = Re w -> Im z = Im w -> z = w.
Proof. destruct z, w; simpl; intros -> ->; reflexivity. Qed.

Lemma Cadd_assoc (x y z : C) : Cadd x (Cadd y z) = Cadd (Cadd x y) z.
Proof. apply C_eq; simpl; lra. Qed.

Lemma Cadd_0_l (z : C) : Cadd C0 z = z.
Proof. apply C_eq; simpl; lra. Qed.

Lemma Cadd_0_r (z : C) : Cadd z C0 = z.
Proof. apply C_eq; simpl; lra. Qed.

Lemma Cmul_0_l (z : C) : Cmul (RtoC 0) z = C0.
Proof. apply C_eq; simpl; lra. Qed.

Lemma Cabs_C0 : Cabs C0 = 0.
Proof.
  unfold Cabs; simpl. replace (0 * 0 + 0 * 0) with 0 by lra. apply sqrt_0.
Qed.

(** The exponent of the source, built by complex products and a complex
    quotient, is the purely imaginary number [-i * (2 pi k n / N)]. *)
Lemma exponent_eq (k n N : nat) :
  N <> O ->
  Cdiv (Cmul (Cmul (Cmul (Cmul (Copp Cj) (RtoC 2)) (RtoC PI)) (RtoC (INR k)))
             (RtoC (INR n))) (RtoC (INR N))
  = Cmul (Copp Cj) (RtoC (2 * PI * INR k * INR n / INR N)).
Proof.
  intros HN. assert (INR N <> 0) by (apply not_0_INR; exact HN).
  apply C_eq; simpl; field; assumption.
Qed.

(** [exp] of a purely imaginary number, by components. *)
Lemma Cexp_imaginary (x : R) :
  Cexp (Cmul (Copp Cj) (RtoC x)) = mkC (cos x) (- sin x).
Proof.
  unfold Cexp; simpl.
  replace (- 0 * x - - (1) * 0) with 0 by lra.
  replace (- 0 * 0 + - (1) * x) with (- x) by lra.
  rewrite exp_0, cos_neg, sin_neg. apply C_eq; simpl; lra.
Qed.

(** ** Sums *)

Lemma Csigma_ext (n : nat) (f g : nat -> C) :
  (forall i, (i < n)%nat -> f i = g i) -> Csigma n f = Csigma n g.
Proof.
  induction n as [|n IH]; intros H; simpl; [reflexivity|].
  rewrite IH by (intros; apply H; lia). rewrite H by lia. reflexivity.
Qed.

Lemma Csigma_shift (n : nat) (f : nat -> C) :
  Csigma (S n) f = Cadd (f O) (Csigma n (fun i => f (S i))).
Proof.
  induction n as [|n IH].
  - simpl. rewrite Cadd_0_l, Cadd_0_r. reflexivity.
  - change (Csigma (S (S n)) f) with (Cadd (Csigma (S n) f) (f (S n))).
    rewrite IH. simpl. rewrite Cadd_assoc. reflexivity.
Qed.

(** [np.sum] of an element-wise product against an array indexed by
    [s, s+1, ...] is the indexed sum. *)
Lemma np_sum_zip_with (g : nat -> C) (sig : list R) (s : nat) :
  np_sum (zip_with (fun x e => Cmul (RtoC x) e) sig (map g (seq s (length sig))))
  = Csigma (length sig) (fun n => Cmul (RtoC (nth n sig 0)) (g (s + n)%nat)).
Proof.
  revert s. induction sig as [|x sig IH]; intros s.
  - reflexivity.
  - change (length (x :: sig)) with (S (length sig)).
    rewrite Csigma_shift. simpl. rewrite IH.
    replace (s + 0)%nat with s by lia. f_equal.
    apply Csigma_ext; intros i _. replace (s + S i)%nat with (S s + i)%nat by lia.
    reflexivity.
Qed.

Lemma dft_bin_direct_summation (sig : list R) (k : nat) :
  sig <> [] -> dft_bin sig k = direct_summation sig k.
Proof.
  intros Hne. unfold dft_bin, direct_summation, twiddles, np_arange_int.
  rewrite (np_sum_zip_with _ sig 0). apply Csigma_ext; intros n _. simpl.
  rewrite exponent_eq; [reflexivity|].
  destruct sig; [contradiction|simpl; lia].
Qed.

(** ** The loop over the bins *)

Lemma dft_loop_gen (g : nat -> C) (l : list R) (s : nat) (tf : list C) :
  let out := foldl (fun (tf : list C) (kf : nat * R) => <[fst kf := g (fst kf)]> tf)
                   tf (zip (seq s (length l)) l) in
  length out = length tf /\
  forall k : nat, out !! k =
    if decide (s <= k < s + length l /\ k < length tf)%nat then Some (g k) else tf !! k.
Proof.
  revert s tf. induction l as [|x l IH]; intros s tf; simpl.
  - split; [reflexivity|]. intros k. destruct (decide _) as [H|H]; [lia|reflexivity].
  - destruct (IH (S s) (<[s := g s]> tf)) as [Hlen Hlk]. split.
    + rewrite Hlen. apply length_insert.
    + intros k. rewrite Hlk, length_insert.
      destruct (decide (S s <= k < S s + length l /\ k < length tf)%nat) as [H1|H1].
      * destruct (decide _) as [H2|H2]; [reflexivity|lia].
      * destruct (decide (s <= k < s + S (length l) /\ k < length tf)%nat) as [H2|H2].
        -- assert (k = s) by lia. subst k.
           apply list_lookup_insert_eq. lia.
        -- destruct (decide (k = s)) as [->|Hks].
           ++ rewrite !lookup_ge_None_2; [reflexivity|lia|rewrite length_insert; lia].
           ++ apply list_lookup_insert_ne. congruence.
Qed.

Lemma dft_loop_spec (sig freqs : list R) :
  let tf := dft_loop sig freqs (np_zeros (length freqs)) in
  length tf = length freqs /\
  forall k : nat, (k < length freqs)%nat -> tf !! k = Some (dft_bin sig k).
Proof.
  unfold dft_loop, enumerate.
  destruct (dft_loop_gen (dft_bin sig) freqs 0 (np_zeros (length freqs))) as [Hlen Hlk].
  unfold np_zeros in *. rewrite length_replicate in *. split; [exact Hlen|].
  intros k Hk. rewrite Hlk. destruct (decide _) as [_|H]; [reflexivity|lia].
Qed.

(** ** Division and the shape of the engine's result *)

Lemma py_div_ok (a b : R) : b <> 0 -> py_div a b = Ok (a / b).
Proof. intros H. unfold py_div. destruct (Req_dec_T b 0); [contradiction|reflexivity]. Qed.

Lemma py_div_zero (a : R) : py_div a 0 = Err ZeroDivisionError.
Proof. unfold py_div. destruct (Req_dec_T 0 0); [reflexivity|contradiction]. Qed.

Lemma compute_dft_ok (fs duree : R) (sig : list R) :
  duree <> 0 ->
  compute_dft fs duree sig =
    Ok (np_arange 0 (3 * fs) (1 / duree),
        dft_loop sig (np_arange 0 (3 * fs) (1 / duree))
                 (np_zeros (length (np_arange 0 (3 * fs) (1 / duree))))).
Proof. intros H. unfold compute_dft. rewrite py_div_ok by exact H. reflexivity. Qed.

Lemma compute_dft_zero_duration (fs : R) (sig : list R) :
  compute_dft fs 0 sig = Err ZeroDivisionError.
Proof. unfold compute_dft. rewrite py_div_zero. reflexivity. Qed.

(** ** Ceiling and [np.arange] *)

Lemma Rceil_spec (x : R) : IZR (Rceil x) - 1 < x <= IZR (Rceil x).
Proof.
  unfold Rceil. rewrite opp_IZR.
  destruct (base_Int_part (- x)) as [H1 H2]. lra.
Qed.

Lemma Rceil_unique (x : R) (z : Z) : IZR z - 1 < x <= IZR z -> Rceil x = z.
Proof.
  intros [H1 H2]. destruct (Rceil_spec x) as [H3 H4].
  assert (Rceil x < z + 1)%Z by (apply lt_IZR; rewrite plus_IZR; lra).
  assert (z < Rceil x + 1)%Z by (apply lt_IZR; rewrite plus_IZR; lra).
  lia.
Qed.

Lemma np_arange_length (a b s : R) : length (np_arange a b s) = arange_len a b s.
Proof. unfold np_arange. rewrite length_map, length_seq. reflexivity. Qed.

Lemma np_arange_lookup (a b s : R) (i : nat) :
  (i < arange_len a b s)%nat -> np_arange a b s !! i = Some (a + INR i * s).
Proof.
  intros Hi. unfold np_arange. rewrite list_lookup_fmap.
  rewrite lookup_seq_lt by exact Hi. reflexivity.
Qed.

(** With a positive step, index [i] is on the array exactly when
    [start + i*step] is strictly below [stop]. *)
Lemma arange_len_lt_iff (a b s : R) (i : nat) :
  0 < s -> (i < arange_len a b s)%nat <-> a + INR i * s < b.
Proof.
  intros Hs. unfold arange_len.
  set (q := (b - a) / s). assert (Hq : q * s = b - a) by (unfold q; field; lra).
  destruct (Rceil_spec q) as [H1 H2]. rewrite INR_IZR_INZ. split.
  - intros Hi. assert (Hz : (Z.of_nat i <= Rceil q - 1)%Z) by lia.
    apply IZR_le in Hz. rewrite minus_IZR in Hz. nra.
  - intros Hi. assert (Hz : IZR (Z.of_nat i) < IZR (Rceil q)) by nra.
    apply lt_IZR in Hz. lia.
Qed.


Lemma arange_len_integer (a b s : R) (n : nat) :
  (b - a) / s = INR n -> arange_len a b s = n.
Proof.
  intros Hq. unfold arange_len. rewrite Hq.
  rewrite (Rceil_unique (INR n) (Z.of_nat n)).
  - apply Nat2Z.id.
  - rewrite <- INR_IZR_INZ. lra.
Qed.

Lemma arange_len_nonpos (a b s : R) : (b - a) / s <= 0 -> arange_len a b s = O.
Proof.
  intros Hq. unfold arange_len. destruct (Rceil_spec ((b - a) / s)) as [H1 H2].
  assert (Rceil ((b - a) / s) < 1)%Z by (apply lt_IZR; lra). lia.
Qed.

(** ** The direct summation *)

(** C1. For every valid input (positive sample rate, positive window
    duration, non-empty signal of length N), [compute_dft] returns a
    spectrum with one value per point of the non-empty frequency axis, and the
    value at every index [k] of the axis is the direct summation
    [sum over n < N of signal[n] * exp(-i*2*pi*k*n/N)]: the exponent
    uses the bin index [k], not the frequency value. *)
Theorem compute_dft_direct_summation (sample_rate window_duration : R) (signal : list R) :
  valid_input sample_rate window_duration signal ->
  exists freqs tf,
    compute_dft sample_rate window_duration signal = Ok (freqs, tf) /\
    (0 < length freqs)%nat /\
    length tf = length freqs /\
    forall k : nat, (k < length freqs)%nat ->
      tf !! k = Some (direct_summation signal k).
Proof.
  intros (Hfs & Hd & Hsig).
  eexists _, _. split; [apply compute_dft_ok; lra|]. split.
  { rewrite np_arange_length. apply arange_len_lt_iff.
    - apply Rdiv_lt_0_compat; lra.
    - simpl. lra. }
  destruct (dft_loop_spec signal (np_arange 0 (3 * sample_rate) (1 / window_duration)))
    as [Hlen Hlk].
  split; [exact Hlen|]. intros k Hk.
  rewrite Hlk by exact Hk. rewrite dft_bin_direct_summation by exact Hsig. reflexivity.
Qed.

Lemma compute_dft_direct_summation_witness :
  valid_input 50 3 [0; 1] /\
  exists freqs tf,
    compute_dft 50 3 [0; 1] = Ok (freqs, tf) /\
    (0 < length freqs)%nat /\
    length tf = length freqs /\
    forall k : nat, (k < length freqs)%nat ->
      tf !! k = Some (direct_summation [0; 1] k).
Proof.
  assert (H : valid_input 50 3 [0; 1]).
  { unfold valid_input. repeat split; [lra|lra|discriminate]. }
  split; [exact H|]. exact (compute_dft_direct_summation 50 3 [0; 1] H).
Defined.

(** ** The frequency axis *)







(** ** Errors of the engine *)

(** C3, as stated, fails: an empty signal is accepted, and a window
    duration of zero raises the division error, not [InvalidInput]. *)
Lemma compute_dft_invalid_input_counterexample :
  (exists freqs tf, compute_dft 50 3 [] = Ok (freqs, tf)) /\
  compute_dft 50 0 [0; 1] = Err ZeroDivisionError /\
  compute_dft 50 3 [] <> Err InvalidInput /\
  compute_dft 50 0 [0; 1] <> Err InvalidInput.
Proof.
  assert (H1 : exists freqs tf, compute_dft 50 3 [] = Ok (freqs, tf)).
  { eexists _, _. apply compute_dft_ok. lra. }
  assert (H2 : compute_dft 50 0 [0; 1] = Err ZeroDivisionError)
    by apply compute_dft_zero_duration.
  split; [exact H1|]. split; [exact H2|]. split.
  - destruct H1 as (freqs & tf & ->). discriminate.
  - rewrite H2. discriminate.
Qed.

(** C3, amended. [compute_dft] never fails with [InvalidInput]. It
    raises exactly when the window duration is zero, and the error is
    then [ZeroDivisionError]; for any other window duration it returns,
    whatever the sample rate and the signal; in particular it does not
    raise for a valid input. *)
Theorem compute_dft_errors (sample_rate window_duration : R) (signal : list R) :
  compute_dft sample_rate window_duration signal <> Err InvalidInput /\
  (window_duration = 0 ->
     compute_dft sample_rate window_duration signal = Err ZeroDivisionError) /\
  (window_duration <> 0 ->
     exists freqs tf, compute_dft sample_rate window_duration signal = Ok (freqs, tf)) /\
  (valid_input sample_rate window_duration signal ->
     ~ raises (compute_dft sample_rate window_duration signal)).
Proof.
  destruct (Req_dec_T window_duration 0) as [->|Hd].
  - rewrite compute_dft_zero_duration. split; [discriminate|].
    split; [reflexivity|]. split; [contradiction|].
    intros (_ & Hpos & _). lra.
  - rewrite compute_dft_ok by exact Hd. split; [discriminate|].
    split; [contradiction|]. split; [eexists _, _; reflexivity|].
    intros _ [e He]. discriminate.
Qed.

Lemma compute_dft_errors_witness :
  compute_dft 50 0 [0; 1] = Err ZeroDivisionError /\
  (exists freqs tf, compute_dft 50 (-3) [] = Ok (freqs, tf)) /\
  ~ raises (compute_dft 50 3 [0; 1]).
Proof.
  split; [|split].
  - apply (compute_dft_errors 50 0 [0; 1]). reflexivity.
  - apply (compute_dft_errors 50 (-3) []). lra.
  - apply (compute_dft_errors 50 3 [0; 1]).
    unfold valid_input. repeat split; [lra|lra|discriminate].
Defined.

(** ** Frame rules for methods *)

Section Frame.

Variable rel : Aliasing_Window -> Aliasing_Window -> Prop.
Hypothesis rel_refl : forall w, rel w w.
Hypothesis rel_trans : forall w1 w2 w3, rel w1 w2 -> rel w2 w3 -> rel w1 w3.

Lemma keeps_ret {A} (a : A) : keeps rel (ret a).
Proof. intros w. apply rel_refl. Qed.

Lemma keeps_self : keeps rel self.
Proof. intros w. apply rel_refl. Qed.

Lemma keeps_lift {A} (r : result A) : keeps rel (lift r).
Proof. intros w. apply rel_refl. Qed.

Lemma keeps_modify (f : Aliasing_Window -> Aliasing_Window) :
  (forall w, rel w (f w)) -> keeps rel (modify f).
Proof. intros Hf w. apply Hf. Qed.

Lemma keeps_bind {A B} (m : M A) (k : A -> M B) :
  keeps rel m -> (forall a, keeps rel (k a)) -> keeps rel (bind m k).
Proof.
  intros Hm Hk w. unfold bind. specialize (Hm w).
  destruct (m w) as [[a|e] w1]; simpl in *.
  - eapply rel_trans; [exact Hm|apply Hk].
  - exact Hm.
Qed.

Lemma keeps_for_each {A} (l : list A) (body : A -> M unit) :
  (forall x, keeps rel (body x)) -> keeps rel (for_each l body).
Proof.
  intros Hbody. induction l as [|x l IH]; simpl.
  - apply keeps_ret.
  - apply keeps_bind; [apply Hbody|intros _; exact IH].
Qed.

End Frame.

Lemma same_config_refl (w : Aliasing_Window) : same_config w w.
Proof. unfold same_config, same_rates. tauto. Qed.

Lemma same_config_trans (w1 w2 w3 : Aliasing_Window) :
  same_config w1 w2 -> same_config w2 w3 -> same_config w1 w3.
Proof. unfold same_config, same_rates. intuition congruence. Qed.

Lemma same_rates_refl (w : Aliasing_Window) : same_rates w w.
Proof. unfold same_rates. tauto. Qed.

Lemma same_rates_trans (w1 w2 w3 : Aliasing_Window) :
  same_rates w1 w2 -> same_rates w2 w3 -> same_rates w1 w3.
Proof. unfold same_rates. intuition congruence. Qed.

Lemma same_config_rates (w w' : Aliasing_Window) : same_config w w' -> same_rates w w'.
Proof. intros [H _]. exact H. Qed.

Ltac frame_step :=
  first
    [ apply (keeps_ret same_config same_config_refl)
    | apply (keeps_self same_config same_config_refl)
    | apply (keeps_lift same_config same_config_refl)
    | apply keeps_modify; intros ?; unfold same_config, same_rates; simpl; tauto
    | apply (keeps_for_each same_config same_config_refl same_config_trans); intros ?
    | apply (keeps_bind same_config same_config_trans); [|intros ?] ].

Lemma gen_sig_keeps : keeps same_config gen_sig.
Proof. unfold gen_sig. repeat frame_step. Qed.

Lemma init_time_domain_keeps : keeps same_config init_time_domain.
Proof.
  unfold init_time_domain, td_call.
  repeat first [apply gen_sig_keeps | frame_step].
Qed.

Lemma init_freq_domain_keeps : keeps same_config init_freq_domain.
Proof.
  unfold init_freq_domain, fd_call.
  repeat first [apply gen_sig_keeps | frame_step].
Qed.

Lemma init_sliders_keeps : keeps same_config init_sliders.
Proof. unfold init_sliders. repeat frame_step. Qed.

Lemma __init___keeps : keeps same_config __init__.
Proof.
  unfold __init__.
  repeat first [apply init_sliders_keeps | apply init_time_domain_keeps
               | apply init_freq_domain_keeps | frame_step].
Qed.

(** ** What the methods do when nothing raises *)

Lemma bind_ok {A B} (m : M A) (k : A -> M B) (w w' : Aliasing_Window) (a : A) :
  m w = (Ok a, w') -> bind m k w = k a w'.
Proof. intros H. unfold bind. rewrite H. reflexivity. Qed.

Lemma bind_err {A B} (m : M A) (k : A -> M B) (w w' : Aliasing_Window) (e : exn) :
  m w = (Err e, w') -> bind m k w = (Err e, w').
Proof. intros H. unfold bind. rewrite H. reflexivity. Qed.

Lemma bind_assoc {A B D} (m : M A) (k : A -> M B) (h : B -> M D) (w : Aliasing_Window) :
  bind (bind m k) h w = bind m (fun a => bind (k a) h) w.
Proof. unfold bind. destruct (m w) as [[a|e] w1]; reflexivity. Qed.

Lemma bind_ret {A B} (a : A) (k : A -> M B) (w : Aliasing_Window) :
  bind (ret a) k w = k a w.
Proof. reflexivity. Qed.

Lemma bind_self {B} (k : Aliasing_Window -> M B) (w : Aliasing_Window) :
  bind self k w = k w w.
Proof. reflexivity. Qed.

Lemma bind_lift_ok {A B} (a : A) (k : A -> M B) (w : Aliasing_Window) :
  bind (lift (Ok a)) k w = k a w.
Proof. reflexivity. Qed.

Lemma bind_modify {B} (f : Aliasing_Window -> Aliasing_Window) (k : unit -> M B)
    (w : Aliasing_Window) :
  bind (modify f) k w = k tt (f w).
Proof. reflexivity. Qed.

Lemma bind_td_call {B} (d : draw) (k : unit -> M B) (w : Aliasing_Window) :
  bind (td_call d) k w = k tt (set_td (td w ++ [d]) w).
Proof. reflexivity. Qed.

Lemma bind_td_call_again {B} (d : draw) (k : unit -> M B) (l : list draw)
    (w : Aliasing_Window) :
  bind (td_call d) k (set_td l w) = k tt (set_td (l ++ [d]) w).
Proof. reflexivity. Qed.

Lemma td_call_again (d : draw) (l : list draw) (w : Aliasing_Window) :
  td_call d (set_td l w) = (Ok tt, set_td (l ++ [d]) w).
Proof. reflexivity. Qed.

Lemma bind_fd_call {B} (d : draw) (k : unit -> M B) (w : Aliasing_Window) :
  bind (fd_call d) k w = k tt (set_fd (fd w ++ [d]) w).
Proof. reflexivity. Qed.

Lemma bind_fd_call_again {B} (d : draw) (k : unit -> M B) (l : list draw)
    (w : Aliasing_Window) :
  bind (fd_call d) k (set_fd l w) = k tt (set_fd (l ++ [d]) w).
Proof. reflexivity. Qed.

Lemma fd_call_again (d : draw) (l : list draw) (w : Aliasing_Window) :
  fd_call d (set_fd l w) = (Ok tt, set_fd (l ++ [d]) w).
Proof. reflexivity. Qed.

(** Runs a straight-line method body whose divisions and indexings have
    already been rewritten to their values. *)
Ltac run_method :=
  repeat first
    [ rewrite bind_assoc
    | rewrite bind_ret
    | rewrite bind_self
    | rewrite bind_lift_ok
    | rewrite bind_td_call_again
    | rewrite bind_fd_call_again
    | rewrite td_call_again
    | rewrite fd_call_again
    | rewrite bind_td_call
    | rewrite bind_fd_call ];
  rewrite <- ?app_assoc.

Lemma gen_sig_run (w : Aliasing_Window) :
  fs w <> 0 -> gen_sig w = (Ok (sample_times w, samples w), w).
Proof.
  intros Hfs. unfold gen_sig, bind, self, lift, ret.
  rewrite py_div_ok by exact Hfs. reflexivity.
Qed.

Lemma gen_sig_raise (w : Aliasing_Window) :
  fs w = 0 -> gen_sig w = (Err ZeroDivisionError, w).
Proof.
  intros Hfs. unfold gen_sig, bind, self, lift, ret.
  rewrite Hfs, py_div_zero. reflexivity.
Qed.

Lemma gen_sig_state (w : Aliasing_Window) : snd (gen_sig w) = w.
Proof.
  destruct (Req_dec_T (fs w) 0) as [H|H].
  - rewrite gen_sig_raise by exact H. reflexivity.
  - rewrite gen_sig_run by exact H. reflexivity.
Qed.

Lemma take_indices_seq {A} (a : list A) (s n : nat) :
  (s + n <= length a)%nat -> take_indices a (seq s n) = Ok (take n (drop s a)).
Proof.
  revert s. induction n as [|n IH]; intros s Hlen; simpl.
  - reflexivity.
  - destruct (lookup_lt_is_Some_2 a s) as [x Hx]; [lia|].
    rewrite Hx, IH by lia. simpl.
    rewrite (drop_S a x s Hx). reflexivity.
Qed.

Lemma samples_length (w : Aliasing_Window) :
  length (samples w) = arange_len 0 (duree w) (1 / fs w).
Proof. unfold samples, sample_times. rewrite length_map. apply np_arange_length. Qed.

Lemma spectrum_tf_length (w : Aliasing_Window) :
  length (spectrum_tf w) = length (spectrum_freqs w).
Proof. unfold spectrum_tf. apply dft_loop_spec. Qed.

(** The signal never has more samples than the axis has points, so the
    indexing [freqs[fill_idxs]] stays in range. *)
Lemma samples_le_freqs (w : Aliasing_Window) :
  fs w <> 0 -> duree w <> 0 ->
  (length (samples w) <= length (spectrum_freqs w))%nat.
Proof.
  intros Hfs Hd. rewrite samples_length. unfold spectrum_freqs.
  rewrite np_arange_length. unfold arange_len.
  replace ((duree w - 0) / (1 / fs w)) with (duree w * fs w) by (field; exact Hfs).
  replace ((3 * fs w - 0) / (1 / duree w)) with (3 * (duree w * fs w)) by (field; exact Hd).
  set (q := duree w * fs w).
  destruct (Rceil_spec q) as [H1 H2]. destruct (Rceil_spec (3 * q)) as [H3 H4].
  destruct (Rle_lt_dec q 0) as [Hq|Hq].
  - assert (Rceil q < 1)%Z by (apply lt_IZR; lra). lia.
  - assert (Rceil q < Rceil (3 * q) + 1)%Z by (apply lt_IZR; rewrite plus_IZR; lra).
    lia.
Qed.


Lemma init_time_domain_run (w : Aliasing_Window) :
  fs w <> 0 -> f_max w <> 0 ->
  init_time_domain w = (Ok tt, set_td (td w ++ time_domain_draws w) w).
Proof.
  intros Hfs Hmax. unfold init_time_domain.
  rewrite bind_self, py_div_ok, bind_lift_ok by lra.
  rewrite (bind_ok _ _ _ _ _ (gen_sig_run w Hfs)).
  run_method. reflexivity.
Qed.

Lemma init_freq_domain_run (w : Aliasing_Window) :
  fs w <> 0 -> duree w <> 0 ->
  init_freq_domain w = (Ok tt, set_fd (fd w ++ freq_domain_draws w) w).
Proof.
  intros Hfs Hd. unfold init_freq_domain.
  rewrite (bind_ok _ _ _ _ _ (gen_sig_run w Hfs)).
  rewrite bind_self, compute_dft_ok, bind_lift_ok by exact Hd. cbn [fst snd].
  fold (spectrum_freqs w). fold (spectrum_tf w).
  unfold np_arange_int.
  pose proof (samples_le_freqs w Hfs Hd) as Hle.
  rewrite (take_indices_seq (spectrum_freqs w) 0) by (simpl; lia).
  rewrite (take_indices_seq (spectrum_tf w) 0)
    by (rewrite spectrum_tf_length; simpl; lia).
  change (py_range 4) with [0; 1; 2; 3]%Z. cbn [for_each].
  run_method. reflexivity.
Qed.

(** ** The update transition *)

Lemma keeps_weaken {A} (rel rel' : Aliasing_Window -> Aliasing_Window -> Prop) (m : M A) :
  (forall w w', rel w w' -> rel' w w') -> keeps rel m -> keeps rel' m.
Proof. intros Himp Hm w. apply Himp, Hm. Qed.

Lemma update_keeps_rates (v : R) : keeps same_rates (update v).
Proof.
  unfold update, td_clear, fd_clear.
  apply (keeps_bind same_rates same_rates_trans).
  { apply keeps_modify. intros w. unfold same_rates. simpl. tauto. }
  intros _. apply (keeps_weaken same_config); [exact same_config_rates|].
  repeat first [apply init_time_domain_keeps | apply init_freq_domain_keeps | frame_step].
Qed.

Lemma update_sets_freq (v : R) (w : Aliasing_Window) : freq (snd (update v w)) = v.
Proof.
  unfold update. rewrite bind_modify.
  assert (H : keeps same_config
                (bind td_clear (fun _ => bind fd_clear (fun _ =>
                   bind init_time_domain (fun _ => init_freq_domain))))).
  { unfold td_clear, fd_clear.
    repeat first [apply init_time_domain_keeps | apply init_freq_domain_keeps | frame_step]. }
  destruct (H (set_freq v w)) as [_ Hf]. exact Hf.
Qed.

Lemma animation_update_keeps_rates (v : R) : keeps same_rates (animation_update v).
Proof.
  intros w. unfold animation_update, slider_set_val. rewrite bind_self.
  destruct (freq_slider w) as [s|].
  - rewrite bind_modify.
    apply (same_rates_trans _ (set_freq_slider (mkSlider (valmin s) (valmax s) (valinit s) (valstep s) v) w)).
    + unfold same_rates. simpl. tauto.
    + apply update_keeps_rates.
  - apply same_rates_refl.
Qed.

Lemma update_run (v : R) (w : Aliasing_Window) :
  fs w <> 0 -> duree w <> 0 -> f_max w <> 0 ->
  update v w = (Ok tt, updated v w).
Proof.
  intros Hfs Hd Hmax. unfold update, td_clear, fd_clear.
  rewrite !bind_modify.
  set (w1 := set_fd [] (set_td [] (set_freq v w))).
  rewrite (bind_ok _ _ _ _ _ (init_time_domain_run w1 Hfs Hmax)). cbv beta.
  set (w2 := set_td _ w1).
  rewrite (init_freq_domain_run w2 Hfs Hd). reflexivity.
Qed.

Lemma __init___run : __init__ blank_window = (Ok tt, initial_window).
Proof.
  unfold __init__, init_sliders. rewrite bind_assoc, bind_self, bind_modify.
  set (w1 := set_freq_slider _ blank_window).
  assert (Hfs : fs w1 <> 0) by (simpl; lra).
  assert (Hd : duree w1 <> 0) by (simpl; lra).
  assert (Hmax : f_max w1 <> 0) by (simpl; lra).
  rewrite (bind_ok _ _ _ _ _ (init_time_domain_run w1 Hfs Hmax)). cbv beta.
  set (w2 := set_td _ w1).
  rewrite (init_freq_domain_run w2 Hfs Hd). reflexivity.
Qed.

Lemma animation_update_run (v : R) (w : Aliasing_Window) (s : Slider) :
  fs w <> 0 -> duree w <> 0 -> f_max w <> 0 -> freq_slider w = Some s ->
  animation_update v w =
    (Ok tt, updated v (set_freq_slider
                         (mkSlider (valmin s) (valmax s) (valinit s) (valstep s) v) w)).
Proof.
  intros Hfs Hd Hmax Hs. unfold animation_update, slider_set_val.
  rewrite bind_self, Hs, bind_modify. apply update_run; assumption.
Qed.

(** The sampling rate, window and frequency range of a controller never
    leave their construction values, and its slider exists. *)
Lemma reachable_rates (w : Aliasing_Window) :
  reachable w ->
  fs w = 50 /\ duree w = 3 /\ f_min w = 1 /\ f_max w = 150 /\
  exists s, freq_slider w = Some s.
Proof.
  induction 1 as [w Hinit|w w' v r _ IH Hrun|w w' v r _ IH Hrun].
  - rewrite __init___run in Hinit. injection Hinit as <-.
    repeat split; eexists; reflexivity.
  - destruct IH as (Hfs & Hd & Hmin & Hmax & s & Hs).
    rewrite update_run in Hrun by lra. injection Hrun as _ <-.
    repeat split; try assumption. exists s. exact Hs.
  - destruct IH as (Hfs & Hd & Hmin & Hmax & s & Hs).
    rewrite (animation_update_run v w s) in Hrun by (lra || exact Hs).
    injection Hrun as _ <-.
    repeat split; try assumption. eexists. reflexivity.
Qed.

(** C6. From every state of the controller and for every new frequency,
    [update] returns normally, which is the return to Idle, and leaves a
    state whose signal frequency is the new value while the sample rate,
    the window duration, [f_min] and [f_max] are what they were. *)
Theorem update_changes_only_freq (w : Aliasing_Window) (new_freq : R) :
  reachable w ->
  exists w',
    update new_freq w = (Ok tt, w') /\
    freq w' = new_freq /\
    fs w' = fs w /\ duree w' = duree w /\ f_min w' = f_min w /\ f_max w' = f_max w.
Proof.
  intros Hreach.
  destruct (reachable_rates w Hreach) as (Hfs & Hd & _ & Hmax & _).
  assert (Hrun : update new_freq w = (Ok tt, updated new_freq w))
    by (apply update_run; lra).
  exists (updated new_freq w). split; [exact Hrun|].
  pose proof (update_sets_freq new_freq w) as Hf.
  pose proof (update_keeps_rates new_freq w) as Hrates.
  rewrite Hrun in Hf, Hrates. simpl in Hf, Hrates. split; [exact Hf|exact Hrates].
Qed.

Lemma update_changes_only_freq_witness :
  exists w, reachable w /\
    exists w',
      update 25 w = (Ok tt, w') /\
      freq w' = 25 /\
      fs w' = fs w /\ duree w' = duree w /\ f_min w' = f_min w /\ f_max w' = f_max w.
Proof.
  exists initial_window.
  assert (Hreach : reachable initial_window) by (exact (reach_init _ __init___run)).
  split; [exact Hreach|]. exact (update_changes_only_freq initial_window 25 Hreach).
Defined.

(** ** The sampled signal *)

(** C9. Generating the signal is deterministic: two objects with equal
    sample rate, window duration and signal frequency get the same
    outcome from [gen_sig], the same time points and the same amplitudes
    (or the same exception); [gen_sig] leaves the object as it was; and
    generating twice in a row gives two equal sample sequences. *)
Theorem gen_sig_deterministic (w1 w2 : Aliasing_Window) :
  fs w1 = fs w2 -> duree w1 = duree w2 -> freq w1 = freq w2 ->
  fst (gen_sig w1) = fst (gen_sig w2) /\
  snd (gen_sig w1) = w1 /\
  (forall a b w', gen_sig_twice w1 = (Ok (a, b), w') -> a = b /\ w' = w1).
Proof.
  intros Hfs Hd Hf. split; [|split].
  - destruct (Req_dec_T (fs w1) 0) as [H|H].
    + rewrite (gen_sig_raise w1 H), (gen_sig_raise w2) by congruence. reflexivity.
    + rewrite (gen_sig_run w1 H), (gen_sig_run w2) by congruence.
      unfold samples, sample_times. rewrite Hfs, Hd, Hf. reflexivity.
  - apply gen_sig_state.
  - intros a b w'. unfold gen_sig_twice.
    destruct (Req_dec_T (fs w1) 0) as [H|H].
    + rewrite (bind_err _ _ _ _ _ (gen_sig_raise w1 H)). discriminate.
    + rewrite (bind_ok _ _ _ _ _ (gen_sig_run w1 H)).
      rewrite (bind_ok _ _ _ _ _ (gen_sig_run w1 H)).
      unfold ret. intros Heq. injection Heq as <- <- <-. split; reflexivity.
Qed.

Lemma gen_sig_deterministic_witness :
  fst (gen_sig blank_window) = fst (gen_sig (set_td [SetTitle "old"] blank_window)) /\
  snd (gen_sig blank_window) = blank_window.
Proof.
  destruct (gen_sig_deterministic blank_window (set_td [SetTitle "old"] blank_window)
              eq_refl eq_refl eq_refl) as (H1 & H2 & _).
  split; [exact H1|exact H2].
Defined.

(** ** The aliasing markers *)

Lemma freq_domain_axvlines (w : Aliasing_Window) :
  axvline_positions (freq_domain_draws w) =
    [ IZR (0 - 1) * fs w + freq w; - freq w + IZR (0 + 1) * fs w;
      IZR (1 - 1) * fs w + freq w; - freq w + IZR (1 + 1) * fs w;
      IZR (2 - 1) * fs w + freq w; - freq w + IZR (2 + 1) * fs w;
      IZR (3 - 1) * fs w + freq w; - freq w + IZR (3 + 1) * fs w;
      freq w ].
Proof. reflexivity. Qed.

Lemma small_index_cases (k : Z) :
  (0 <= k <= 3)%Z -> k = 0%Z \/ k = 1%Z \/ k = 2%Z \/ k = 3%Z.
Proof. lia. Qed.

(** C5. For a valid SamplingConfig, the vertical lines
    [init_freq_domain] draws on the frequency plot are at exactly the
    AliasingMarkers of the sample rate and the signal frequency, and the
    line at the signal frequency is the only one drawn solid. *)
Theorem aliasing_markers_drawn (w : Aliasing_Window) :
  valid_config w ->
  exists w' new,
    init_freq_domain w = (Ok tt, w') /\
    fd w' = fd w ++ new /\
    (forall x : R, In x (axvline_positions new) <-> AliasingMarkers (fs w) (freq w) x) /\
    solid_axvlines new = [Axvline (freq w) "b" None 2].
Proof.
  intros [Hfs Hd]. exists (set_fd (fd w ++ freq_domain_draws w) w), (freq_domain_draws w).
  split; [apply init_freq_domain_run; lra|]. split; [reflexivity|].
  split; [|reflexivity].
  intros x. rewrite freq_domain_axvlines. unfold AliasingMarkers.
  rewrite !minus_IZR, !plus_IZR.
  split.
  - intros Hin. simpl in Hin.
    destruct Hin as [H|[H|[H|[H|[H|[H|[H|[H|[H|[]]]]]]]]]]; subst x.
    + left. exists 0%Z. split; [lia|lra].
    + right; left. exists 0%Z. split; [lia|lra].
    + left. exists 1%Z. split; [lia|lra].
    + right; left. exists 1%Z. split; [lia|lra].
    + left. exists 2%Z. split; [lia|lra].
    + right; left. exists 2%Z. split; [lia|lra].
    + left. exists 3%Z. split; [lia|lra].
    + right; left. exists 3%Z. split; [lia|lra].
    + right; right. reflexivity.
  - intros [(k & Hk & ->) | [(k & Hk & ->) | ->]].
    + destruct (small_index_cases k Hk) as [-> | [-> | [-> | ->]]]; simpl.
      * left. lra.
      * do 2 right. left. lra.
      * do 4 right. left. lra.
      * do 6 right. left. lra.
    + destruct (small_index_cases k Hk) as [-> | [-> | [-> | ->]]]; simpl.
      * right. left. lra.
      * do 3 right. left. lra.
      * do 5 right. left. lra.
      * do 7 right. left. lra.
    + simpl. do 8 right. left. reflexivity.
Qed.

Lemma aliasing_markers_drawn_witness :
  valid_config blank_window /\
  exists w' new,
    init_freq_domain blank_window = (Ok tt, w') /\
    fd w' = fd blank_window ++ new /\
    (forall x : R, In x (axvline_positions new) <->
       AliasingMarkers (fs blank_window) (freq blank_window) x) /\
    solid_axvlines new = [Axvline (freq blank_window) "b" None 2].
Proof.
  assert (H : valid_config blank_window) by (unfold valid_config; simpl; lra).
  split; [exact H|]. exact (aliasing_markers_drawn blank_window H).
Defined.

(** ** A zero-frequency signal *)

Lemma Csigma_zero (n : nat) (f : nat -> C) :
  (forall i, (i < n)%nat -> f i = C0) -> Csigma n f = C0.
Proof.
  induction n as [|n IH]; intros H; simpl; [reflexivity|].
  rewrite IH by (intros; apply H; lia). rewrite H by lia. apply Cadd_0_l.
Qed.

Lemma dft_bin_zero_signal (sig : list R) (k : nat) :
  (forall i x, sig !! i = Some x -> x = 0) -> dft_bin sig k = C0.
Proof.
  intros Hz. unfold dft_bin, twiddles, np_arange_int.
  rewrite (np_sum_zip_with _ sig 0). apply Csigma_zero. intros i Hi.
  destruct (lookup_lt_is_Some_2 sig i Hi) as [x Hx].
  rewrite (nth_lookup_Some _ _ 0 _ Hx), (Hz i x Hx). apply Cmul_0_l.
Qed.

Lemma samples_zero_frequency (w : Aliasing_Window) (i : nat) (x : R) :
  freq w = 0 -> samples w !! i = Some x -> x = 0.
Proof.
  intros Hf. unfold samples. rewrite list_lookup_fmap, Hf.
  destruct (sample_times w !! i) as [t|]; simpl; [|discriminate].
  intros [= <-]. replace (2 * PI * 0 * t) with 0 by lra. apply sin_0.
Qed.

(** C8. When the signal is generated with a signal frequency of 0, the
    spectrum [compute_dft] returns for it has, at every bin whose
    frequency is not 0, a magnitude within any tolerance: that
    magnitude is 0. *)
Theorem zero_frequency_spectrum (w : Aliasing_Window) :
  valid_config w -> freq w = 0 ->
  exists t sig freqs tf,
    gen_sig w = (Ok (t, sig), w) /\
    compute_dft (fs w) (duree w) sig = Ok (freqs, tf) /\
    freqs !! O = Some 0 /\
    forall (k : nat) (f : R), freqs !! k = Some f -> f <> 0 ->
      exists X, tf !! k = Some X /\ forall tol : R, 0 <= tol -> Cabs X <= tol.
Proof.
  intros [Hfs Hd] Hf.
  exists (sample_times w), (samples w), (spectrum_freqs w), (spectrum_tf w).
  split; [apply gen_sig_run; lra|]. split; [apply compute_dft_ok; lra|].
  assert (Hstep : 0 < 1 / duree w) by (apply Rdiv_lt_0_compat; lra).
  split.
  - unfold spectrum_freqs. rewrite np_arange_lookup.
    + f_equal. simpl. lra.
    + apply arange_len_lt_iff; [exact Hstep|]. simpl. lra.
  - intros k f Hk _. exists C0. split.
    + destruct (dft_loop_spec (samples w) (spectrum_freqs w)) as [_ Hlk].
      unfold spectrum_tf. rewrite Hlk by (eapply lookup_lt_Some; exact Hk).
      f_equal. apply dft_bin_zero_signal. intros i x. apply samples_zero_frequency, Hf.
    + intros tol Htol. rewrite Cabs_C0. exact Htol.
Qed.

Lemma zero_frequency_spectrum_witness :
  valid_config (set_freq 0 blank_window) /\ freq (set_freq 0 blank_window) = 0 /\
  exists t sig freqs tf,
    gen_sig (set_freq 0 blank_window) = (Ok (t, sig), set_freq 0 blank_window) /\
    compute_dft 50 3 sig = Ok (freqs, tf) /\
    freqs !! O = Some 0 /\
    forall (k : nat) (f : R), freqs !! k = Some f -> f <> 0 ->
      exists X, tf !! k = Some X /\ forall tol : R, 0 <= tol -> Cabs X <= tol.
Proof.
  assert (H : valid_config (set_freq 0 blank_window)) by (unfold valid_config; simpl; lra).
  split; [exact H|]. split; [reflexivity|].
  exact (zero_frequency_spectrum (set_freq 0 blank_window) H eq_refl).
Defined.

(** ** Periodicity of the spectrum *)

Lemma direct_summation_periodic (sig : list R) (k : nat) :
  sig <> [] -> direct_summation sig (k + length sig) = direct_summation sig k.
Proof.
  intros Hne. unfold direct_summation. apply Csigma_ext. intros n _.
  assert (HN : INR (length sig) <> 0).
  { apply not_0_INR. destruct sig; [contradiction|simpl; lia]. }
  rewrite !Cexp_imaginary. rewrite plus_INR.
  replace (2 * PI * (INR k + INR (length sig)) * INR n / INR (length sig))
    with (2 * PI * INR k * INR n / INR (length sig) + 2 * INR n * PI)
    by (field; exact HN).
  rewrite cos_period, sin_period. reflexivity.
Qed.

(** C10. The spectrum is periodic in the bin index with period N, the
    length of the signal: for a non-empty signal, whenever [k] and
    [k+N] are both on the frequency axis the values at the two bins are
    equal. *)
Theorem spectrum_periodic (sample_rate window_duration : R) (signal : list R) :
  window_duration <> 0 -> signal <> [] ->
  exists freqs tf,
    compute_dft sample_rate window_duration signal = Ok (freqs, tf) /\
    forall k : nat, (k + length signal < length freqs)%nat ->
      exists X, tf !! k = Some X /\ tf !! (k + length signal)%nat = Some X.
Proof.
  intros Hd Hne. eexists _, _. split; [apply compute_dft_ok; exact Hd|].
  intros k Hk.
  destruct (dft_loop_spec signal (np_arange 0 (3 * sample_rate) (1 / window_duration)))
    as [_ Hlk].
  exists (direct_summation signal k). split.
  - rewrite Hlk by lia. rewrite dft_bin_direct_summation by exact Hne. reflexivity.
  - rewrite Hlk by lia. rewrite dft_bin_direct_summation by exact Hne.
    rewrite direct_summation_periodic by exact Hne. reflexivity.
Qed.

Lemma spectrum_periodic_witness :
  exists freqs tf,
    compute_dft 50 3 [0; 1] = Ok (freqs, tf) /\
    (0 + length [0; 1] < length freqs)%nat /\
    exists X, tf !! O = Some X /\ tf !! 2%nat = Some X.
Proof.
  assert (H3 : 3 <> 0) by lra.
  assert (Hne : [0; 1] <> @nil R) by discriminate.
  destruct (spectrum_periodic 50 3 [0; 1] H3 Hne) as (freqs & tf & Hrun & Hper).
  exists freqs, tf. split; [exact Hrun|].
  assert (Hlen : (0 + length [0; 1] < length freqs)%nat).
  { rewrite compute_dft_ok in Hrun by exact H3. injection Hrun as <- _.
    rewrite np_arange_length. apply arange_len_lt_iff; simpl; lra. }
  split; [exact Hlen|]. exact (Hper O Hlen).
Defined.

(** ** The animation sweep *)

(** The frames of the animation are 50 linearly spaced frequencies, the
    first [f_min] and the last [f_max]. *)
Lemma animation_frames_linear (w : Aliasing_Window) :
  length (animation_frames w) = 50%nat /\
  (forall i : nat, (i < 50)%nat ->
     animation_frames w !! i = Some (f_min w + INR i * ((f_max w - f_min w) / 49))) /\
  animation_frames w !! O = Some (f_min w) /\
  animation_frames w !! 49%nat = Some (f_max w).
Proof.
  assert (Hlk : forall i : nat, (i < 50)%nat ->
            animation_frames w !! i = Some (f_min w + INR i * ((f_max w - f_min w) / 49))).
  { intros i Hi. unfold animation_frames, np_linspace.
    rewrite list_lookup_fmap, lookup_seq_lt by exact Hi. reflexivity. }
  split; [|split; [exact Hlk|split]].
  - unfold animation_frames, np_linspace. rewrite length_map, length_seq. reflexivity.
  - rewrite Hlk by lia. f_equal. simpl. lra.
  - rewrite Hlk by lia. f_equal. rewrite INR_IZR_INZ.
    change (Z.of_nat 49) with 49%Z. field.
Qed.

(** Each frame of the animation is an [update] transition of the
    controller to the frame's frequency. *)
Lemma animation_update_reachable (w : Aliasing_Window) (v : R) :
  reachable w ->
  exists w', animation_update v w = (Ok tt, w') /\ freq w' = v /\ reachable w'.
Proof.
  intros Hreach.
  destruct (reachable_rates w Hreach) as (Hfs & Hd & _ & Hmax & s & Hs).
  assert (Hrun := animation_update_run v w s).
  rewrite Hrun by (lra || exact Hs).
  eexists. split; [reflexivity|]. split; [reflexivity|].
  eapply reach_animation; [exact Hreach|]. apply Hrun; lra || exact Hs.
Qed.

(** * Further properties of the engine *)

(** ** Degenerate inputs *)

Lemma dft_bin_nil (k : nat) : dft_bin [] k = C0.
Proof. reflexivity. Qed.

Lemma dft_loop_zero_bins (sig freqs : list R) :
  (forall k, dft_bin sig k = C0) ->
  dft_loop sig freqs (np_zeros (length freqs)) = np_zeros (length freqs).
Proof.
  intros Hz. destruct (dft_loop_spec sig freqs) as [Hlen Hlk].
  apply list_eq. intros k.
  destruct (decide (k < length freqs)%nat) as [Hk|Hk].
  - rewrite Hlk by exact Hk. rewrite Hz. unfold np_zeros.
    symmetry. apply lookup_replicate_2. exact Hk.
  - rewrite !lookup_ge_None_2; [reflexivity| |].
    + unfold np_zeros. rewrite length_replicate. lia.
    + rewrite Hlen. lia.
Qed.

(** X1. An empty signal is accepted: whenever the window duration is not
    zero, [compute_dft] returns the frequency axis as usual and a
    spectrum that is zero at every bin. *)
Theorem compute_dft_empty_signal (sample_rate window_duration : R) :
  window_duration <> 0 ->
  compute_dft sample_rate window_duration [] =
    Ok (np_arange 0 (3 * sample_rate) (1 / window_duration),
        np_zeros (length (np_arange 0 (3 * sample_rate) (1 / window_duration)))).
Proof.
  intros Hd. rewrite compute_dft_ok by exact Hd.
  rewrite dft_loop_zero_bins by exact dft_bin_nil. reflexivity.
Qed.

Lemma compute_dft_empty_signal_witness :
  exists freqs,
    compute_dft 50 3 [] = Ok (freqs, np_zeros (length freqs)) /\ length freqs = 450%nat.
Proof.
  assert (H3 : 3 <> 0) by lra.
  eexists. split; [exact (compute_dft_empty_signal 50 3 H3)|].
  rewrite np_arange_length. apply arange_len_integer.
  rewrite INR_IZR_INZ. change (Z.of_nat 450) with 450%Z. lra.
Defined.

(** X2. A sample rate that is zero or negative, with a positive window
    duration, is accepted too: the frequency axis and the spectrum are
    both empty, whatever the signal. *)
Theorem compute_dft_nonpositive_rate (sample_rate window_duration : R) (signal : list R) :
  sample_rate <= 0 -> 0 < window_duration ->
  compute_dft sample_rate window_duration signal = Ok ([], []).
Proof.
  intros Hfs Hd. rewrite compute_dft_ok by lra.
  assert (Hlen : arange_len 0 (3 * sample_rate) (1 / window_duration) = O).
  { apply arange_len_nonpos.
    replace ((3 * sample_rate - 0) / (1 / window_duration))
      with (3 * sample_rate * window_duration) by (field; lra).
    nra. }
  unfold np_arange. rewrite Hlen. reflexivity.
Qed.

Lemma compute_dft_nonpositive_rate_witness :
  compute_dft 0 3 [0; 1] = Ok ([], []) /\ compute_dft (-50) 3 [0; 1] = Ok ([], []).
Proof.
  split.
  - apply (compute_dft_nonpositive_rate 0 3 [0; 1]); lra.
  - apply (compute_dft_nonpositive_rate (-50) 3 [0; 1]); lra.
Defined.

(** ** What a bin depends on *)

(** X3. The value of a bin depends on the signal and on the bin index
    only: two calls on the same signal, with any sample rates and any
    non-zero window durations, agree at every index that is on both
    axes.  The frequency value [f] of the loop is never used. *)
Theorem compute_dft_bins_ignore_axis (fs1 d1 fs2 d2 : R) (signal : list R) :
  d1 <> 0 -> d2 <> 0 ->
  exists freqs1 tf1 freqs2 tf2,
    compute_dft fs1 d1 signal = Ok (freqs1, tf1) /\
    compute_dft fs2 d2 signal = Ok (freqs2, tf2) /\
    forall k : nat, (k < length freqs1)%nat -> (k < length freqs2)%nat ->
      exists X, tf1 !! k = Some X /\ tf2 !! k = Some X.
Proof.
  intros H1 H2. eexists _, _, _, _.
  split; [apply compute_dft_ok; exact H1|]. split; [apply compute_dft_ok; exact H2|].
  intros k Hk1 Hk2. exists (dft_bin signal k).
  destruct (dft_loop_spec signal (np_arange 0 (3 * fs1) (1 / d1))) as [_ Hl1].
  destruct (dft_loop_spec signal (np_arange 0 (3 * fs2) (1 / d2))) as [_ Hl2].
  split; [apply Hl1; exact Hk1|apply Hl2; exact Hk2].
Qed.

Lemma compute_dft_bins_ignore_axis_witness :
  exists freqs1 tf1 freqs2 tf2,
    compute_dft 50 3 [0; 1] = Ok (freqs1, tf1) /\
    compute_dft 10 (1 / 2) [0; 1] = Ok (freqs2, tf2) /\
    (1 < length freqs1)%nat /\ (1 < length freqs2)%nat /\
    exists X, tf1 !! 1%nat = Some X /\ tf2 !! 1%nat = Some X.
Proof.
  assert (H1 : 3 <> 0) by lra. assert (H2 : 1 / 2 <> 0) by lra.
  destruct (compute_dft_bins_ignore_axis 50 3 10 (1 / 2) [0; 1] H1 H2)
    as (f1 & t1 & f2 & t2 & Hr1 & Hr2 & Hk).
  exists f1, t1, f2, t2. split; [exact Hr1|]. split; [exact Hr2|].
  assert (Hl1 : (1 < length f1)%nat).
  { rewrite compute_dft_ok in Hr1 by exact H1. injection Hr1 as <- _.
    rewrite np_arange_length. apply arange_len_lt_iff; simpl; lra. }
  assert (Hl2 : (1 < length f2)%nat).
  { rewrite compute_dft_ok in Hr2 by exact H2. injection Hr2 as <- _.
    rewrite np_arange_length. apply arange_len_lt_iff; simpl; lra. }
  split; [exact Hl1|]. split; [exact Hl2|]. exact (Hk 1%nat Hl1 Hl2).
Defined.

(** ** The shape of the spectrum of a real signal *)

Lemma Csigma_nth_sum (l : list R) :
  Csigma (length l) (fun n => RtoC (nth n l 0)) = RtoC (Rsum l).
Proof.
  induction l as [|x l IH].
  - reflexivity.
  - change (length (x :: l)) with (S (length l)). rewrite Csigma_shift.
    simpl nth. rewrite IH. apply C_eq; simpl; lra.
Qed.

Lemma direct_summation_dc (sig : list R) :
  direct_summation sig O = RtoC (Rsum sig).
Proof.
  unfold direct_summation. rewrite <- Csigma_nth_sum.
  apply Csigma_ext. intros n _. rewrite Cexp_imaginary.
  replace (2 * PI * INR 0 * INR n / INR (length sig)) with 0
    by (simpl; unfold Rdiv; ring).
  rewrite cos_0, sin_0. apply C_eq; simpl; lra.
Qed.

(** X4. In exact arithmetic (the rounding of the sum and the narrowing
    of the bins to single precision are not modelled): for every valid
    input, the bin of index 0 is the sum of the samples, with no
    imaginary part. *)
Theorem compute_dft_dc_bin (sample_rate window_duration : R) (signal : list R) :
  valid_input sample_rate window_duration signal ->
  exists freqs tf,
    compute_dft sample_rate window_duration signal = Ok (freqs, tf) /\
    freqs !! O = Some 0 /\
    tf !! O = Some (RtoC (Rsum signal)).
Proof.
  intros (Hfs & Hd & Hne).
  assert (Hstep : 0 < 1 / window_duration) by (apply Rdiv_lt_0_compat; lra).
  assert (H0 : (0 < arange_len 0 (3 * sample_rate) (1 / window_duration))%nat).
  { apply arange_len_lt_iff; [exact Hstep|]. simpl. lra. }
  eexists _, _. split; [apply compute_dft_ok; lra|]. split.
  - rewrite np_arange_lookup by exact H0. f_equal. simpl. lra.
  - destruct (dft_loop_spec signal (np_arange 0 (3 * sample_rate) (1 / window_duration)))
      as [_ Hlk].
    rewrite Hlk by (rewrite np_arange_length; exact H0).
    rewrite dft_bin_direct_summation by exact Hne.
    rewrite direct_summation_dc. reflexivity.
Qed.

Lemma compute_dft_dc_bin_witness :
  exists freqs tf,
    compute_dft 50 3 [1; 2; 4] = Ok (freqs, tf) /\
    freqs !! O = Some 0 /\
    tf !! O = Some (RtoC 7).
Proof.
  assert (H : valid_input 50 3 [1; 2; 4]).
  { unfold valid_input. repeat split; [lra|lra|discriminate]. }
  destruct (compute_dft_dc_bin 50 3 [1; 2; 4] H) as (freqs & tf & Hrun & Hf & Ht).
  exists freqs, tf. split; [exact Hrun|]. split; [exact Hf|].
  rewrite Ht. f_equal. f_equal. unfold Rsum. simpl. lra.
Defined.

Lemma Csigma_conj (n : nat) (f : nat -> C) :
  Csigma n (fun i => Cconj (f i)) = Cconj (Csigma n f).
Proof.
  induction n as [|n IH]; simpl.
  - apply C_eq; simpl; lra.
  - rewrite IH. apply C_eq; simpl; lra.
Qed.

Lemma Cabs_conj (z : C) : Cabs (Cconj z) = Cabs z.
Proof. unfold Cabs, Cconj. simpl. f_equal. ring. Qed.

Lemma direct_summation_mirror (sig : list R) (k : nat) :
  sig <> [] -> (k <= length sig)%nat ->
  direct_summation sig (length sig - k) = Cconj (direct_summation sig k).
Proof.
  intros Hne Hk. unfold direct_summation. rewrite <- Csigma_conj.
  apply Csigma_ext. intros n _.
  assert (HN : INR (length sig) <> 0).
  { apply not_0_INR. destruct sig; [contradiction|simpl; lia]. }
  rewrite !Cexp_imaginary. rewrite minus_INR by exact Hk.
  replace (2 * PI * (INR (length sig) - INR k) * INR n / INR (length sig))
    with (- (2 * PI * INR k * INR n / INR (length sig)) + 2 * INR n * PI)
    by (field; exact HN).
  rewrite cos_period, sin_period, cos_neg, sin_neg.
  apply C_eq; simpl; lra.
Qed.

(** X5. The spectrum of the (real) signal is mirrored inside each
    period: for a non-empty signal of length N and [k <= N], when the
    bins [k] and [N-k] are both on the axis the value at [N-k] is the
    complex conjugate of the value at [k], so the two magnitudes are
    equal. *)
Theorem spectrum_mirrored (sample_rate window_duration : R) (signal : list R) :
  window_duration <> 0 -> signal <> [] ->
  exists freqs tf,
    compute_dft sample_rate window_duration signal = Ok (freqs, tf) /\
    forall k : nat,
      (k <= length signal)%nat -> (k < length freqs)%nat ->
      (length signal - k < length freqs)%nat ->
      exists X Y,
        tf !! k = Some X /\ tf !! (length signal - k)%nat = Some Y /\
        Y = Cconj X /\ Cabs Y = Cabs X.
Proof.
  intros Hd Hne. eexists _, _. split; [apply compute_dft_ok; exact Hd|].
  intros k Hk Hk1 Hk2.
  destruct (dft_loop_spec signal (np_arange 0 (3 * sample_rate) (1 / window_duration)))
    as [_ Hlk].
  exists (direct_summation signal k), (direct_summation signal (length signal - k)).
  split; [|split; [|split]].
  - rewrite Hlk by exact Hk1. rewrite dft_bin_direct_summation by exact Hne. reflexivity.
  - rewrite Hlk by exact Hk2. rewrite dft_bin_direct_summation by exact Hne. reflexivity.
  - apply direct_summation_mirror; assumption.
  - rewrite direct_summation_mirror by assumption. apply Cabs_conj.
Qed.

Lemma spectrum_mirrored_witness :
  exists freqs tf,
    compute_dft 50 3 [0; 1; 2] = Ok (freqs, tf) /\
    exists X Y,
      tf !! 1%nat = Some X /\ tf !! 2%nat = Some Y /\ Y = Cconj X /\ Cabs Y = Cabs X.
Proof.
  assert (H3 : 3 <> 0) by lra.
  assert (Hne : [0; 1; 2] <> @nil R) by discriminate.
  destruct (spectrum_mirrored 50 3 [0; 1; 2] H3 Hne) as (freqs & tf & Hrun & Hm).
  exists freqs, tf. split; [exact Hrun|].
  assert (Hlen : (2 < length freqs)%nat).
  { rewrite compute_dft_ok in Hrun by exact H3. injection Hrun as <- _.
    rewrite np_arange_length. apply arange_len_lt_iff; simpl; lra. }
  apply (Hm 1%nat); simpl; lia.
Defined.

(** ** A bound on the magnitudes *)

Lemma Cabs_nonneg (z : C) : 0 <= Cabs z.
Proof. apply sqrt_pos. Qed.

Lemma Cabs_sqr (z : C) : Cabs z * Cabs z = Re z * Re z + Im z * Im z.
Proof. unfold Cabs. apply sqrt_sqrt. nra. Qed.

Lemma Cabs_triangle (z w : C) : Cabs (Cadd z w) <= Cabs z + Cabs w.
Proof.
  pose proof (Cabs_nonneg z) as Hz. pose proof (Cabs_nonneg w) as Hw.
  pose proof (Cabs_sqr z) as Sz. pose proof (Cabs_sqr w) as Sw.
  pose proof (Cabs_nonneg (Cadd z w)) as Hzw. pose proof (Cabs_sqr (Cadd z w)) as Szw.
  simpl in Szw.
  set (a := Re z) in *. set (b := Re w) in *. set (c := Im z) in *. set (d := Im w) in *.
  set (p := Cabs z) in *. set (q := Cabs w) in *. set (r := Cabs (Cadd z w)) in *.
  assert (Hcs : a * b + c * d <= p * q).
  { destruct (Rle_lt_dec (a * b + c * d) (p * q)) as [H|H]; [exact H|].
    exfalso.
    assert (Hpq : 0 <= p * q) by (apply Rmult_le_pos; assumption).
    assert (H1 : 0 < (a * b + c * d - p * q) * (a * b + c * d + p * q))
      by (apply Rmult_lt_0_compat; lra).
    assert (H2 : (a * b + c * d) * (a * b + c * d) <= (p * p) * (q * q)).
    { rewrite Sz, Sw.
      replace ((a * a + c * c) * (b * b + d * d))
        with ((a * b + c * d) * (a * b + c * d) + (a * d - c * b) * (a * d - c * b))
        by ring.
      pose proof (Rle_0_sqr (a * d - c * b)) as Hsq. unfold Rsqr in Hsq. lra. }
    nra. }
  destruct (Rle_lt_dec r (p + q)) as [H|H]; [exact H|]. exfalso.
  assert (H1 : 0 < (r - (p + q)) * (r + (p + q)))
    by (apply Rmult_lt_0_compat; lra).
  nra.
Qed.

Lemma Cabs_scaled_unit (s x : R) :
  Cabs (Cmul (RtoC s) (mkC (cos x) (- sin x))) = Rabs s.
Proof.
  unfold Cabs. simpl. rewrite <- sqrt_Rsqr_abs. f_equal. unfold Rsqr.
  pose proof (sin2_cos2 x) as H. unfold Rsqr in H. nra.
Qed.

Lemma twiddles_unit (k N : nat) (idxs : list nat) :
  N <> O ->
  Forall (fun e => exists x, e = mkC (cos x) (- sin x)) (twiddles k N idxs).
Proof.
  intros HN. unfold twiddles. apply Forall_fmap, Forall_forall. intros n _. simpl.
  rewrite exponent_eq by exact HN. rewrite Cexp_imaginary. eexists. reflexivity.
Qed.

Lemma np_sum_bound (sig : list R) (tw : list C) :
  Forall (fun e => exists x, e = mkC (cos x) (- sin x)) tw ->
  Cabs (np_sum (zip_with (fun s e => Cmul (RtoC s) e) sig tw)) <= Rabs_sum sig.
Proof.
  intros Htw. revert sig. induction Htw as [|e tw [x ->] _ IH]; intros sig.
  - destruct sig; simpl; rewrite Cabs_C0.
    + lra.
    + pose proof (Rabs_pos r).
      assert (0 <= Rabs_sum sig).
      { clear. induction sig as [|y sig IH]; simpl; [lra|]. pose proof (Rabs_pos y). lra. }
      lra.
  - destruct sig as [|s sig]; simpl.
    + rewrite Cabs_C0. lra.
    + eapply Rle_trans; [apply Cabs_triangle|].
      rewrite Cabs_scaled_unit. specialize (IH sig). lra.
Qed.

Lemma dft_bin_bound (sig : list R) (k : nat) : Cabs (dft_bin sig k) <= Rabs_sum sig.
Proof.
  destruct sig as [|s sig].
  - rewrite dft_bin_nil, Cabs_C0. simpl. lra.
  - unfold dft_bin. apply np_sum_bound, twiddles_unit. simpl. lia.
Qed.

(** X6. In exact arithmetic (rounding and the narrowing of the bins
    to single precision are not modelled): no bin is larger in
    magnitude than the sum of the absolute values of the samples. *)
Theorem spectrum_magnitude_bound (sample_rate window_duration : R) (signal : list R) :
  window_duration <> 0 ->
  exists freqs tf,
    compute_dft sample_rate window_duration signal = Ok (freqs, tf) /\
    forall (k : nat) (X : C), tf !! k = Some X -> Cabs X <= Rabs_sum signal.
Proof.
  intros Hd. eexists _, _. split; [apply compute_dft_ok; exact Hd|].
  intros k X Hk.
  destruct (dft_loop_spec signal (np_arange 0 (3 * sample_rate) (1 / window_duration)))
    as [Hlen Hlk].
  rewrite Hlk in Hk by (rewrite <- Hlen; eapply lookup_lt_Some; exact Hk).
  injection Hk as <-. apply dft_bin_bound.
Qed.

Lemma spectrum_magnitude_bound_witness :
  exists freqs tf,
    compute_dft 50 3 [1; -2] = Ok (freqs, tf) /\
    forall (k : nat) (X : C), tf !! k = Some X -> Cabs X <= 3.
Proof.
  assert (H3 : 3 <> 0) by lra.
  destruct (spectrum_magnitude_bound 50 3 [1; -2] H3) as (freqs & tf & Hrun & Hb).
  exists freqs, tf. split; [exact Hrun|]. intros k X Hk.
  eapply Rle_trans; [exact (Hb k X Hk)|].
  unfold Rabs_sum. simpl. rewrite (Rabs_pos_eq 1), (Rabs_left (-2)) by lra. lra.
Defined.

(** * Further properties of the sampling *)

(** ** Aliasing of the samples *)

Lemma samples_as_map (w : Aliasing_Window) :
  samples w =
    map (fun i : nat => sin (2 * PI * freq w * (0 + INR i * (1 / fs w))))
        (seq 0 (arange_len 0 (duree w) (1 / fs w))).
Proof. unfold samples, sample_times, np_arange. rewrite map_map. reflexivity. Qed.

Lemma sample_times_set_freq (v : R) (w : Aliasing_Window) :
  sample_times (set_freq v w) = sample_times w.
Proof. reflexivity. Qed.

Lemma samples_shifted (w : Aliasing_Window) (m : nat) :
  fs w <> 0 -> samples (set_freq (freq w + INR m * fs w) w) = samples w.
Proof.
  intros Hfs. rewrite !samples_as_map. simpl. apply map_ext. intros i.
  replace (2 * PI * (freq w + INR m * fs w) * (0 + INR i * (1 / fs w)))
    with (2 * PI * freq w * (0 + INR i * (1 / fs w)) + 2 * INR (m * i) * PI)
    by (rewrite mult_INR; field; exact Hfs).
  apply sin_period.
Qed.

(** X7. Aliasing of the samples: raising the signal frequency by any
    whole multiple of the sample rate changes nothing in what [gen_sig]
    returns, neither the time points nor the amplitudes. *)
Theorem gen_sig_aliased (w : Aliasing_Window) (m : nat) :
  fs w <> 0 ->
  exists t sig,
    fst (gen_sig w) = Ok (t, sig) /\
    fst (gen_sig (set_freq (freq w + INR m * fs w) w)) = Ok (t, sig).
Proof.
  intros Hfs. exists (sample_times w), (samples w).
  rewrite (gen_sig_run w Hfs), (gen_sig_run (set_freq _ w) Hfs).
  rewrite sample_times_set_freq, samples_shifted by exact Hfs.
  split; reflexivity.
Qed.

Lemma gen_sig_aliased_witness :
  exists t sig,
    fst (gen_sig blank_window) = Ok (t, sig) /\
    fst (gen_sig (set_freq (1 + INR 1 * 50) blank_window)) = Ok (t, sig).
Proof.
  assert (H : fs blank_window <> 0) by (simpl; lra).
  exact (gen_sig_aliased blank_window 1 H).
Defined.

(** ** Folding *)

Lemma samples_folded (w : Aliasing_Window) (m : nat) :
  fs w <> 0 -> samples (set_freq (INR m * fs w - freq w) w) = map Ropp (samples w).
Proof.
  intros Hfs. rewrite !samples_as_map. simpl. rewrite map_map. apply map_ext. intros i.
  replace (2 * PI * (INR m * fs w - freq w) * (0 + INR i * (1 / fs w)))
    with (- (2 * PI * freq w * (0 + INR i * (1 / fs w))) + 2 * INR (m * i) * PI)
    by (rewrite mult_INR; field; exact Hfs).
  rewrite sin_period. apply sin_neg.
Qed.

Lemma np_sum_zip_with_opp (sig : list R) (tw : list C) :
  np_sum (zip_with (fun s e => Cmul (RtoC s) e) (map Ropp sig) tw)
  = Copp (np_sum (zip_with (fun s e => Cmul (RtoC s) e) sig tw)).
Proof.
  revert tw. induction sig as [|s sig IH]; intros tw.
  - apply C_eq; simpl; lra.
  - destruct tw as [|e tw].
    + apply C_eq; simpl; lra.
    + simpl. rewrite IH. apply C_eq; simpl; lra.
Qed.

Lemma dft_bin_opp (sig : list R) (k : nat) :
  dft_bin (map Ropp sig) k = Copp (dft_bin sig k).
Proof. unfold dft_bin. rewrite length_map. apply np_sum_zip_with_opp. Qed.

Lemma Cabs_opp (z : C) : Cabs (Copp z) = Cabs z.
Proof. unfold Cabs, Copp. simpl. f_equal. ring. Qed.

Lemma spectrum_magnitudes_opp (sig freqs : list R) :
  map Cabs (dft_loop (map Ropp sig) freqs (np_zeros (length freqs)))
  = map Cabs (dft_loop sig freqs (np_zeros (length freqs))).
Proof.
  destruct (dft_loop_spec sig freqs) as [Hlen1 Hlk1].
  destruct (dft_loop_spec (map Ropp sig) freqs) as [Hlen2 Hlk2].
  apply list_eq. intros k. rewrite !list_lookup_fmap.
  destruct (decide (k < length freqs)%nat) as [Hk|Hk].
  - rewrite Hlk1, Hlk2 by exact Hk. simpl. rewrite dft_bin_opp, Cabs_opp. reflexivity.
  - rewrite !lookup_ge_None_2; [reflexivity| |]; lia.
Qed.

(** X8. Folding: at the signal frequency [m*fs - f], for any whole [m],
    [gen_sig] returns the samples of frequency [f] with the opposite
    sign, and the magnitudes [compute_dft] gives for them, which is the
    curve [init_freq_domain] plots, are the same as for [f]. *)
Theorem spectrum_folded (w : Aliasing_Window) (m : nat) :
  fs w <> 0 -> duree w <> 0 ->
  exists t sig freqs tf tf',
    fst (gen_sig w) = Ok (t, sig) /\
    fst (gen_sig (set_freq (INR m * fs w - freq w) w)) = Ok (t, map Ropp sig) /\
    compute_dft (fs w) (duree w) sig = Ok (freqs, tf) /\
    compute_dft (fs w) (duree w) (map Ropp sig) = Ok (freqs, tf') /\
    map Cabs tf' = map Cabs tf.
Proof.
  intros Hfs Hd.
  exists (sample_times w), (samples w). eexists _, _, _.
  rewrite (gen_sig_run w Hfs), (gen_sig_run (set_freq _ w) Hfs).
  rewrite sample_times_set_freq, samples_folded by exact Hfs.
  split; [reflexivity|]. split; [reflexivity|].
  split; [apply compute_dft_ok; exact Hd|].
  split; [apply compute_dft_ok; exact Hd|].
  apply spectrum_magnitudes_opp.
Qed.

Lemma spectrum_folded_witness :
  exists t sig freqs tf tf',
    fst (gen_sig blank_window) = Ok (t, sig) /\
    fst (gen_sig (set_freq (INR 1 * 50 - 1) blank_window)) = Ok (t, map Ropp sig) /\
    compute_dft 50 3 sig = Ok (freqs, tf) /\
    compute_dft 50 3 (map Ropp sig) = Ok (freqs, tf') /\
    map Cabs tf' = map Cabs tf.
Proof.
  assert (H1 : fs blank_window <> 0) by (simpl; lra).
  assert (H2 : duree blank_window <> 0) by (simpl; lra).
  exact (spectrum_folded blank_window 1 H1 H2).
Defined.

(** ** Frequencies that sample to nothing *)

Lemma samples_half_rate (w : Aliasing_Window) (m : nat) (i : nat) (x : R) :
  fs w <> 0 -> freq w = INR m * fs w / 2 -> samples w !! i = Some x -> x = 0.
Proof.
  intros Hfs Hf. rewrite samples_as_map, list_lookup_fmap.
  destruct (seq 0 (arange_len 0 (duree w) (1 / fs w)) !! i) as [j|]; simpl; [|discriminate].
  intros [= <-]. apply sin_eq_0_1. exists (Z.of_nat (m * j)).
  rewrite <- INR_IZR_INZ, mult_INR, Hf. field. exact Hfs.
Qed.

(** X9. When the signal frequency is a whole multiple of half the
    sample rate, every sample [gen_sig] returns is 0 and every bin
    [compute_dft] returns for them is 0: such a signal leaves no trace
    in the spectrum. *)
Theorem half_rate_signal_vanishes (w : Aliasing_Window) (m : nat) :
  fs w <> 0 -> duree w <> 0 -> freq w = INR m * fs w / 2 ->
  exists t sig freqs,
    fst (gen_sig w) = Ok (t, sig) /\
    (forall (i : nat) (x : R), sig !! i = Some x -> x = 0) /\
    compute_dft (fs w) (duree w) sig = Ok (freqs, np_zeros (length freqs)).
Proof.
  intros Hfs Hd Hf. exists (sample_times w), (samples w). eexists.
  rewrite (gen_sig_run w Hfs). split; [reflexivity|].
  assert (Hz : forall (i : nat) (x : R), samples w !! i = Some x -> x = 0).
  { intros i x. apply (samples_half_rate w m); assumption. }
  split; [exact Hz|].
  rewrite compute_dft_ok by exact Hd.
  rewrite dft_loop_zero_bins; [reflexivity|].
  intros k. apply dft_bin_zero_signal. exact Hz.
Qed.

Lemma half_rate_signal_vanishes_witness :
  exists t sig freqs,
    fst (gen_sig (set_freq 25 blank_window)) = Ok (t, sig) /\
    (forall (i : nat) (x : R), sig !! i = Some x -> x = 0) /\
    compute_dft 50 3 sig = Ok (freqs, np_zeros (length freqs)).
Proof.
  assert (H1 : fs (set_freq 25 blank_window) <> 0) by (simpl; lra).
  assert (H2 : duree (set_freq 25 blank_window) <> 0) by (simpl; lra).
  assert (H3 : freq (set_freq 25 blank_window)
               = INR 1 * fs (set_freq 25 blank_window) / 2) by (simpl; lra).
  exact (half_rate_signal_vanishes (set_freq 25 blank_window) 1 H1 H2 H3).
Defined.

(** * Further properties of the controller *)

(** ** How the rendering methods fail *)

Lemma init_time_domain_raise (w : Aliasing_Window) :
  fs w = 0 \/ f_max w = 0 -> init_time_domain w = (Err ZeroDivisionError, w).
Proof.
  intros H. unfold init_time_domain. rewrite bind_self.
  destruct (Req_dec_T (f_max w) 0) as [Hmax|Hmax].
  - rewrite Hmax, Rmult_0_r, py_div_zero. reflexivity.
  - destruct H as [Hfs|Hm]; [|contradiction].
    rewrite py_div_ok, bind_lift_ok by lra.
    rewrite (bind_err _ _ _ _ _ (gen_sig_raise w Hfs)). reflexivity.
Qed.

Lemma init_freq_domain_raise (w : Aliasing_Window) :
  fs w = 0 \/ duree w = 0 -> init_freq_domain w = (Err ZeroDivisionError, w).
Proof.
  intros H. unfold init_freq_domain.
  destruct (Req_dec_T (fs w) 0) as [Hfs|Hfs].
  - rewrite (bind_err _ _ _ _ _ (gen_sig_raise w Hfs)). reflexivity.
  - destruct H as [Hf|Hd]; [contradiction|].
    rewrite (bind_ok _ _ _ _ _ (gen_sig_run w Hfs)).
    rewrite bind_self, Hd, compute_dft_zero_duration. reflexivity.
Qed.

(** X11. [init_freq_domain] never raises [IndexError]: the signal never
    has more samples than the axis has points, so the band to shade is
    always on the axis.  It raises exactly when the sample rate or the
    window duration is zero, with [ZeroDivisionError] and nothing drawn;
    otherwise it returns having appended its fifteen calls to [fd]. *)
Theorem init_freq_domain_outcome (w : Aliasing_Window) :
  ((fs w = 0 \/ duree w = 0) /\
   init_freq_domain w = (Err ZeroDivisionError, w))
  \/
  (fs w <> 0 /\ duree w <> 0 /\
   (length (samples w) <= length (spectrum_freqs w))%nat /\
   init_freq_domain w = (Ok tt, set_fd (fd w ++ freq_domain_draws w) w) /\
   length (freq_domain_draws w) = 15%nat).
Proof.
  destruct (Req_dec_T (fs w) 0) as [Hfs|Hfs].
  { left. split; [left; exact Hfs|]. apply init_freq_domain_raise. left. exact Hfs. }
  destruct (Req_dec_T (duree w) 0) as [Hd|Hd].
  { left. split; [right; exact Hd|]. apply init_freq_domain_raise. right. exact Hd. }
  right. split; [exact Hfs|]. split; [exact Hd|].
  split; [apply samples_le_freqs; assumption|].
  split; [apply init_freq_domain_run; assumption|reflexivity].
Qed.

(** X12. How [update] fails.  It raises only [ZeroDivisionError], and
    exactly when the sample rate, [f_max] or the window duration is
    zero.  It is not undone: the frequency is already the new one and
    both plots have been cleared; when only the window duration is zero
    the time plot has been redrawn and the frequency plot is left
    empty. *)
Theorem update_outcome (v : R) (w : Aliasing_Window) :
  let w1 := set_fd [] (set_td [] (set_freq v w)) in
  ((fs w = 0 \/ f_max w = 0) /\
   update v w = (Err ZeroDivisionError, w1))
  \/
  (fs w <> 0 /\ f_max w <> 0 /\ duree w = 0 /\
   update v w = (Err ZeroDivisionError, set_td (time_domain_draws w1) w1))
  \/
  (fs w <> 0 /\ f_max w <> 0 /\ duree w <> 0 /\
   update v w = (Ok tt, updated v w)).
Proof.
  intros w1. unfold update, td_clear, fd_clear. rewrite !bind_modify. fold w1.
  destruct (Req_dec_T (fs w) 0) as [Hfs|Hfs].
  { left. split; [left; exact Hfs|].
    rewrite (bind_err _ _ _ _ _ (init_time_domain_raise w1 (or_introl Hfs))). reflexivity. }
  destruct (Req_dec_T (f_max w) 0) as [Hmax|Hmax].
  { left. split; [right; exact Hmax|].
    rewrite (bind_err _ _ _ _ _ (init_time_domain_raise w1 (or_intror Hmax))). reflexivity. }
  right.
  rewrite (bind_ok _ _ _ _ _ (init_time_domain_run w1 Hfs Hmax)). cbv beta.
  set (w2 := set_td _ w1).
  destruct (Req_dec_T (duree w) 0) as [Hd|Hd].
  - left. repeat (split; [assumption|]).
    rewrite (init_freq_domain_raise w2 (or_intror Hd)). reflexivity.
  - right. repeat (split; [assumption|]).
    rewrite (init_freq_domain_run w2 Hfs Hd). reflexivity.
Qed.

(** ** How updates compose *)

(** X13. The last update wins: on an object whose sample rate, window
    duration and [f_max] are not zero, [update v1] followed by
    [update v2] returns and leaves exactly the object [update v2] alone
    leaves.  Nothing of the earlier frequency stays on the plots. *)
Theorem update_last_wins (v1 v2 : R) (w : Aliasing_Window) :
  fs w <> 0 -> duree w <> 0 -> f_max w <> 0 ->
  bind (update v1) (fun _ => update v2) w = update v2 w /\
  update v2 w = (Ok tt, updated v2 w).
Proof.
  intros Hfs Hd Hmax.
  assert (H2 : update v2 w = (Ok tt, updated v2 w)) by (apply update_run; assumption).
  split; [|exact H2].
  rewrite (bind_ok _ _ _ _ _ (update_run v1 w Hfs Hd Hmax)). cbv beta.
  rewrite H2. apply (update_run v2 (updated v1 w)); assumption.
Qed.

Lemma update_last_wins_witness :
  bind (update 7) (fun _ => update 25) blank_window = update 25 blank_window /\
  update 25 blank_window = (Ok tt, updated 25 blank_window).
Proof.
  apply (update_last_wins 7 25 blank_window); simpl; lra.
Defined.

(** ** Invariants of the controller *)

Lemma updated_fresh (v : R) (w : Aliasing_Window) :
  td (updated v w) = time_domain_draws (updated v w) /\
  fd (updated v w) = freq_domain_draws (updated v w).
Proof. split; reflexivity. Qed.

Lemma window_eta (w : Aliasing_Window) :
  mkWindow (fs w) (freq w) (duree w) (f_min w) (f_max w) (td w) (fd w) (freq_slider w) = w.
Proof. destruct w. reflexivity. Qed.

Lemma updated_same (w : Aliasing_Window) :
  td w = time_domain_draws w -> fd w = freq_domain_draws w -> updated (freq w) w = w.
Proof.
  intros Htd Hfd. rewrite <- (window_eta w) at 3. rewrite Htd, Hfd. reflexivity.
Qed.

(** X14. The plots are never stale: in every state of the controller
    the time plot and the frequency plot hold exactly the rendering of
    the current frequency, so issuing the current frequency again
    returns and changes nothing. *)
Theorem reachable_plots_fresh (w : Aliasing_Window) :
  reachable w ->
  td w = time_domain_draws w /\
  fd w = freq_domain_draws w /\
  update (freq w) w = (Ok tt, w).
Proof.
  intros Hreach.
  assert (Hfresh : td w = time_domain_draws w /\ fd w = freq_domain_draws w).
  { destruct Hreach as [w Hinit|w w' v r Hw Hrun|w w' v r Hw Hrun].
    - rewrite __init___run in Hinit. injection Hinit as <-. split; reflexivity.
    - destruct (reachable_rates w Hw) as (Hfs & Hd & _ & Hmax & _).
      rewrite update_run in Hrun by lra. injection Hrun as _ <-. apply updated_fresh.
    - destruct (reachable_rates w Hw) as (Hfs & Hd & _ & Hmax & s & Hs).
      rewrite (animation_update_run v w s) in Hrun by (lra || exact Hs).
      injection Hrun as _ <-. apply updated_fresh. }
  destruct Hfresh as [Htd Hfd]. split; [exact Htd|]. split; [exact Hfd|].
  destruct (reachable_rates w Hreach) as (Hfs & Hd & _ & Hmax & _).
  rewrite update_run by lra. rewrite updated_same by assumption. reflexivity.
Qed.

Lemma reachable_plots_fresh_witness :
  td initial_window = time_domain_draws initial_window /\
  fd initial_window = freq_domain_draws initial_window /\
  update (freq initial_window) initial_window = (Ok tt, initial_window).
Proof.
  exact (reachable_plots_fresh initial_window (reach_init _ __init___run)).
Defined.

(** X15. In every state of the controller the slider exists, spans
    [f_min .. f_max] in steps of 1 and started at 1, whatever updates
    and animation frames came before. *)
Theorem reachable_slider_range (w : Aliasing_Window) :
  reachable w ->
  exists s,
    freq_slider w = Some s /\
    valmin s = f_min w /\ valmax s = f_max w /\ valstep s = 1 /\ valinit s = 1.
Proof.
  induction 1 as [w Hinit|w w' v r Hw IH Hrun|w w' v r Hw IH Hrun].
  - rewrite __init___run in Hinit. injection Hinit as <-.
    eexists. split; [reflexivity|]. repeat split; reflexivity.
  - destruct (reachable_rates w Hw) as (Hfs & Hd & _ & Hmax & _).
    rewrite update_run in Hrun by lra. injection Hrun as _ <-. exact IH.
  - destruct (reachable_rates w Hw) as (Hfs & Hd & _ & Hmax & _).
    destruct IH as (s & Hs & H1 & H2 & H3 & H4).
    rewrite (animation_update_run v w s) in Hrun by (lra || exact Hs).
    injection Hrun as _ <-. eexists. split; [reflexivity|]. simpl. auto.
Qed.

Lemma reachable_slider_range_witness :
  exists s,
    freq_slider initial_window = Some s /\
    valmin s = f_min initial_window /\ valmax s = f_max initial_window /\
    valstep s = 1 /\ valinit s = 1.
Proof.
  exact (reachable_slider_range initial_window (reach_init _ __init___run)).
Defined.

(** ** Animation frames *)

(** X16. From every state of the controller, [animation_update v]
    returns, and it does what [update v] does and moves the slider to
    the same value: the plots and the frequency are those [update v]
    leaves, and the slider keeps its range and holds [v]. *)
Theorem animation_update_is_update (w : Aliasing_Window) (v : R) :
  reachable w ->
  exists s w',
    freq_slider w = Some s /\
    animation_update v w = (Ok tt, w') /\
    freq w' = v /\
    td w' = td (updated v w) /\ fd w' = fd (updated v w) /\
    freq_slider w' = Some (mkSlider (valmin s) (valmax s) (valinit s) (valstep s) v).
Proof.
  intros Hreach.
  destruct (reachable_rates w Hreach) as (Hfs & Hd & _ & Hmax & s & Hs).
  exists s. eexists. split; [exact Hs|].
  split; [apply (animation_update_run v w s); lra || exact Hs|].
  repeat split; reflexivity.
Qed.

Lemma animation_update_is_update_witness :
  exists s w',
    freq_slider initial_window = Some s /\
    animation_update 25 initial_window = (Ok tt, w') /\
    freq w' = 25 /\
    td w' = td (updated 25 initial_window) /\ fd w' = fd (updated 25 initial_window) /\
    freq_slider w' = Some (mkSlider (valmin s) (valmax s) (valinit s) (valstep s) 25).
Proof.
  exact (animation_update_is_update initial_window 25 (reach_init _ __init___run)).
Defined.

Lemma animation_update_forgets (w : Aliasing_Window) (x v : R) (s : Slider) :
  fs w <> 0 -> duree w <> 0 -> f_max w <> 0 -> freq_slider w = Some s ->
  bind (animation_update x) (fun _ => animation_update v) w = animation_update v w.
Proof.
  intros Hfs Hd Hmax Hs.
  rewrite (bind_ok _ _ _ _ _ (animation_update_run x w s Hfs Hd Hmax Hs)). cbv beta.
  rewrite (animation_update_run v w s Hfs Hd Hmax Hs).
  set (sx := mkSlider (valmin s) (valmax s) (valinit s) (valstep s) x).
  rewrite (animation_update_run v (updated x (set_freq_slider sx w)) sx Hfs Hd Hmax eq_refl).
  reflexivity.
Qed.

(** X17. A run of animation frames from a state of the controller never
    raises, and it ends in exactly the state its last frame alone would
    have given: a sweep leaves no trace of the frames before the
    last. *)
Theorem animation_sweep_last_frame (w : Aliasing_Window) (frames : list R) (v : R) :
  reachable w ->
  for_each (frames ++ [v]) animation_update w = animation_update v w /\
  exists w', animation_update v w = (Ok tt, w') /\ freq w' = v.
Proof.
  intros Hreach. split.
  - revert w Hreach. induction frames as [|x frames IH]; intros w Hreach.
    + simpl. unfold bind. destruct (animation_update v w) as [[[]|e] w']; reflexivity.
    + destruct (reachable_rates w Hreach) as (Hfs & Hd & _ & Hmax & s & Hs).
      assert (Hfs' : fs w <> 0) by lra. assert (Hd' : duree w <> 0) by lra.
      assert (Hmax' : f_max w <> 0) by lra.
      pose proof (animation_update_run x w s Hfs' Hd' Hmax' Hs) as Hx.
      change (for_each ((x :: frames) ++ [v]) animation_update w)
        with (bind (animation_update x)
                (fun _ => for_each (frames ++ [v]) animation_update) w).
      rewrite (bind_ok _ _ _ _ _ Hx). cbv beta.
      rewrite IH by (eapply reach_animation; [exact Hreach|exact Hx]).
      rewrite <- (animation_update_forgets w x v s Hfs' Hd' Hmax' Hs).
      rewrite (bind_ok _ _ _ _ _ Hx). reflexivity.
  - destruct (animation_update_reachable w v Hreach) as (w' & Hrun & Hf & _).
    exists w'. split; assumption.
Qed.

Lemma animation_sweep_last_frame_witness :
  for_each ([1; 2] ++ [150]) animation_update initial_window
    = animation_update 150 initial_window /\
  exists w', animation_update 150 initial_window = (Ok tt, w') /\ freq w' = 150.
Proof.
  exact (animation_sweep_last_frame initial_window [1; 2] 150 (reach_init _ __init___run)).
Defined.

(** X18. In exact arithmetic (the rounding of each frame is not
    modelled): the frames of the animation stay inside the frequency
    range: when [f_min <= f_max], every one of the 50 frames lies between
    [f_min] and [f_max], the first is [f_min], the last is [f_max], and
    two consecutive frames are [(f_max - f_min)/49] apart. *)
Theorem animation_frames_in_range (w : Aliasing_Window) :
  f_min w <= f_max w ->
  length (animation_frames w) = 50%nat /\
  animation_frames w !! O = Some (f_min w) /\
  animation_frames w !! 49%nat = Some (f_max w) /\
  (forall (i : nat) (f : R), animation_frames w !! i = Some f ->
     f_min w <= f <= f_max w) /\
  (forall (i : nat) (f g : R),
     animation_frames w !! i = Some f -> animation_frames w !! S i = Some g ->
     g - f = (f_max w - f_min w) / 49).
Proof.
  intros Hle. destruct (animation_frames_linear w) as (Hlen & Hlk & H0 & H49).
  split; [exact Hlen|]. split; [exact H0|]. split; [exact H49|]. split.
  - intros i f Hi.
    assert (Hi50 : (i < 50)%nat) by (rewrite <- Hlen; eapply lookup_lt_Some; exact Hi).
    rewrite Hlk in Hi by exact Hi50. injection Hi as <-.
    assert (H1 : 0 <= INR i) by apply pos_INR.
    assert (H2 : INR i <= 49).
    { replace 49 with (INR 49) by (rewrite INR_IZR_INZ; reflexivity).
      apply le_INR. lia. }
    split; nra.
  - intros i f g Hi Hsi.
    assert (Hi50 : (S i < 50)%nat) by (rewrite <- Hlen; eapply lookup_lt_Some; exact Hsi).
    rewrite Hlk in Hi by lia. rewrite Hlk, S_INR in Hsi by exact Hi50.
    injection Hi as <-. injection Hsi as <-. lra.
Qed.

Lemma animation_frames_in_range_witness :
  length (animation_frames initial_window) = 50%nat /\
  animation_frames initial_window !! O = Some 1 /\
  animation_frames initial_window !! 49%nat = Some 150.
Proof.
  assert (H : f_min initial_window <= f_max initial_window) by (simpl; lra).
  destruct (animation_frames_in_range initial_window H) as (H1 & H2 & H3 & _).
  split; [exact H1|]. split; [exact H2|exact H3].
Defined.

(** * Where the peaks of the spectrum are *)

(** ** Sums of sines and cosines over a whole number of turns *)

Lemma Rsigma_ext (n : nat) (f g : nat -> R) :
  (forall i, (i < n)%nat -> f i = g i) -> Rsigma n f = Rsigma n g.
Proof.
  induction n as [|n IH]; intros H; simpl; [reflexivity|].
  rewrite IH by (intros; apply H; lia). rewrite H by lia. reflexivity.
Qed.

Lemma Rsigma_lin (n : nat) (f g : nat -> R) (c d : R) :
  Rsigma n (fun i => c * f i + d * g i) = c * Rsigma n f + d * Rsigma n g.
Proof. induction n as [|n IH]; simpl; [ring|]. rewrite IH. ring. Qed.

Lemma Rsigma_const (n : nat) (c : R) : Rsigma n (fun _ => c) = INR n * c.
Proof.
  induction n as [|n IH]; [simpl; ring|].
  rewrite S_INR. simpl Rsigma. rewrite IH. ring.
Qed.

Lemma Csigma_parts (n : nat) (f g : nat -> R) :
  Csigma n (fun i => mkC (f i) (g i)) = mkC (Rsigma n f) (Rsigma n g).
Proof.
  induction n as [|n IH]; simpl; [reflexivity|]. rewrite IH. reflexivity.
Qed.

Lemma sin_cos_period_Z (x : R) (j : Z) :
  sin (x + 2 * IZR j * PI) = sin x /\ cos (x + 2 * IZR j * PI) = cos x.
Proof.
  destruct (Z_le_gt_dec 0 j) as [Hj|Hj].
  - rewrite <- (Z2Nat.id j Hj), <- INR_IZR_INZ.
    split; [apply sin_period|apply cos_period].
  - assert (Hn : IZR j = - INR (Z.to_nat (- j))).
    { rewrite INR_IZR_INZ, Z2Nat.id by lia. rewrite opp_IZR. lra. }
    set (n := Z.to_nat (- j)) in *. set (y := x + 2 * IZR j * PI).
    replace x with (y + 2 * INR n * PI) by (unfold y; rewrite Hn; ring).
    split; [symmetry; apply sin_period|symmetry; apply cos_period].
Qed.

Lemma cos_sum_telescope (theta : R) (n : nat) :
  2 * sin (theta / 2) * Rsigma n (fun i => cos (INR i * theta))
  = sin ((INR n - 1 / 2) * theta) + sin (theta / 2).
Proof.
  induction n as [|n IH].
  - simpl. replace ((0 - 1 / 2) * theta) with (- (theta / 2)) by field.
    rewrite sin_neg. ring.
  - simpl Rsigma. rewrite Rmult_plus_distr_l, IH, S_INR.
    replace ((INR n + 1 - 1 / 2) * theta) with (INR n * theta + theta / 2) by field.
    replace ((INR n - 1 / 2) * theta) with (INR n * theta - theta / 2) by field.
    rewrite sin_plus, sin_minus. ring.
Qed.

Lemma sin_sum_telescope (theta : R) (n : nat) :
  2 * sin (theta / 2) * Rsigma n (fun i => sin (INR i * theta))
  = cos (theta / 2) - cos ((INR n - 1 / 2) * theta).
Proof.
  induction n as [|n IH].
  - simpl. replace ((0 - 1 / 2) * theta) with (- (theta / 2)) by field.
    rewrite cos_neg. ring.
  - simpl Rsigma. rewrite Rmult_plus_distr_l, IH, S_INR.
    replace ((INR n + 1 - 1 / 2) * theta) with (INR n * theta + theta / 2) by field.
    replace ((INR n - 1 / 2) * theta) with (INR n * theta - theta / 2) by field.
    rewrite cos_plus, cos_minus. ring.
Qed.

Lemma sin_half_turn_nonzero (n : nat) (j : Z) :
  n <> O -> ~ (Z.of_nat n | j)%Z -> sin (2 * PI * IZR j / INR n / 2) <> 0.
Proof.
  intros Hn Hdiv Hsin. apply Hdiv.
  assert (HN : INR n <> 0) by (apply not_0_INR; exact Hn).
  apply sin_eq_0_0 in Hsin. destruct Hsin as [q Hq]. exists q.
  assert (E : 2 * PI * IZR j / INR n / 2 * INR n = PI * IZR j) by (field; exact HN).
  rewrite Hq in E.
  apply eq_IZR. rewrite mult_IZR, <- INR_IZR_INZ.
  apply (Rmult_eq_reg_l PI); [|apply PI_neq0]. rewrite <- E. ring.
Qed.

(** Over [n] samples, the sines of [j] whole turns sum to 0, and the
    cosines sum to 0 unless [n] divides [j]. *)
Lemma turn_sums_nondivisible (n : nat) (j : Z) :
  n <> O -> ~ (Z.of_nat n | j)%Z ->
  Rsigma n (fun i => sin (INR i * (2 * PI * IZR j / INR n))) = 0 /\
  Rsigma n (fun i => cos (INR i * (2 * PI * IZR j / INR n))) = 0.
Proof.
  intros Hn Hdiv.
  assert (HN : INR n <> 0) by (apply not_0_INR; exact Hn).
  pose proof (sin_half_turn_nonzero n j Hn Hdiv) as Hs.
  set (theta := 2 * PI * IZR j / INR n) in *.
  assert (Harg : (INR n - 1 / 2) * theta = - (theta / 2) + 2 * IZR j * PI)
    by (unfold theta; field; exact HN).
  destruct (sin_cos_period_Z (- (theta / 2)) j) as [Hsp Hcp].
  split.
  - pose proof (sin_sum_telescope theta n) as H.
    rewrite Harg, Hcp, cos_neg in H.
    apply (Rmult_eq_reg_l (2 * sin (theta / 2))); [|lra]. rewrite H. ring.
  - pose proof (cos_sum_telescope theta n) as H.
    rewrite Harg, Hsp, sin_neg in H.
    apply (Rmult_eq_reg_l (2 * sin (theta / 2))); [|lra]. rewrite H. ring.
Qed.

Lemma turn_sums_divisible (n : nat) (j : Z) :
  n <> O -> (Z.of_nat n | j)%Z ->
  Rsigma n (fun i => sin (INR i * (2 * PI * IZR j / INR n))) = 0 /\
  Rsigma n (fun i => cos (INR i * (2 * PI * IZR j / INR n))) = INR n.
Proof.
  intros Hn [q ->].
  assert (HN : INR n <> 0) by (apply not_0_INR; exact Hn).
  assert (Harg : forall i : nat,
            INR i * (2 * PI * IZR (q * Z.of_nat n) / INR n)
            = 0 + 2 * IZR (Z.of_nat i * q) * PI).
  { intros i. rewrite !mult_IZR, <- !INR_IZR_INZ. field. exact HN. }
  split.
  - rewrite (Rsigma_ext n _ (fun _ => 0)).
    + rewrite Rsigma_const. ring.
    + intros i _. rewrite Harg.
      destruct (sin_cos_period_Z 0 (Z.of_nat i * q)) as [H _]. rewrite H. apply sin_0.
  - rewrite (Rsigma_ext n _ (fun _ => 1)).
    + rewrite Rsigma_const. ring.
    + intros i _. rewrite Harg.
      destruct (sin_cos_period_Z 0 (Z.of_nat i * q)) as [_ H]. rewrite H. apply cos_0.
Qed.

(** ** The spectrum of a sinusoid with a whole number of cycles *)

Lemma dft_term_sinusoid (a b : R) :
  Cmul (RtoC (sin a)) (mkC (cos b) (- sin b))
  = mkC (/ 2 * sin (a + b) + / 2 * sin (a - b))
        (- / 2 * cos (a - b) + / 2 * cos (a + b)).
Proof.
  rewrite sin_plus, sin_minus, cos_plus, cos_minus. apply C_eq; simpl; field.
Qed.

(** The samples hold [m] whole cycles of the signal. *)
Lemma samples_whole_cycles (w : Aliasing_Window) (m i : nat) :
  fs w <> 0 ->
  freq w * INR (length (samples w)) = INR m * fs w ->
  (i < length (samples w))%nat ->
  nth i (samples w) 0 = sin (2 * PI * INR m * INR i / INR (length (samples w))).
Proof.
  intros Hfs Hcyc Hi.
  assert (HN : INR (length (samples w)) <> 0) by (apply not_0_INR; lia).
  pose proof (samples_length w) as Hlen.
  set (n := length (samples w)) in *.
  assert (Hf : freq w = INR m * fs w / INR n) by (rewrite <- Hcyc; field; exact HN).
  apply nth_lookup_Some with (d := 0).
  rewrite samples_as_map, list_lookup_fmap, lookup_seq_lt by (rewrite <- Hlen; exact Hi).
  simpl. f_equal. f_equal. rewrite Hf. field. split; assumption.
Qed.

Lemma direct_summation_sinusoid (w : Aliasing_Window) (m k : nat) :
  fs w <> 0 ->
  freq w * INR (length (samples w)) = INR m * fs w ->
  samples w <> [] ->
  direct_summation (samples w) k =
    let n := length (samples w) in
    let tp := 2 * PI * IZR (Z.of_nat m + Z.of_nat k) / INR n in
    let tm := 2 * PI * IZR (Z.of_nat m - Z.of_nat k) / INR n in
    mkC (/ 2 * Rsigma n (fun i => sin (INR i * tp))
         + / 2 * Rsigma n (fun i => sin (INR i * tm)))
        (- / 2 * Rsigma n (fun i => cos (INR i * tm))
         + / 2 * Rsigma n (fun i => cos (INR i * tp))).
Proof.
  intros Hfs Hcyc Hne.
  assert (HN : INR (length (samples w)) <> 0).
  { apply not_0_INR. destruct (samples w); [contradiction|simpl; lia]. }
  cbv zeta. rewrite <- !Rsigma_lin, <- Csigma_parts.
  unfold direct_summation. apply Csigma_ext. intros i Hi.
  rewrite (samples_whole_cycles w m i Hfs Hcyc Hi), Cexp_imaginary.
  rewrite dft_term_sinusoid.
  rewrite plus_IZR, minus_IZR, <- !INR_IZR_INZ.
  apply C_eq; simpl; repeat f_equal; field; exact HN.
Qed.

Lemma Cabs_imaginary (y : R) : Cabs (mkC 0 y) = Rabs y.
Proof.
  unfold Cabs. simpl. rewrite <- sqrt_Rsqr_abs. f_equal. unfold Rsqr. ring.
Qed.

(** X19. Where the peaks are, in exact arithmetic (rounding is not
    modelled).  Let [n] be the number of samples [gen_sig] returns, and
    suppose they hold a whole number [m] of cycles of the signal, that
    is [signal_frequency * n = m * sample_rate], with [n] not dividing
    [2m].  Then the spectrum [compute_dft] returns for them is
    [-i*n/2] at every bin [k] with [k - m] a multiple of [n], it is
    [i*n/2] at every bin with [k + m] a multiple of [n], and it is 0 at
    every other bin.  So the magnitude is [n/2] on those two families
    of bins and 0 elsewhere. *)
Theorem spectrum_peaks (w : Aliasing_Window) (m : nat) :
  fs w <> 0 -> duree w <> 0 ->
  exists t sig freqs tf,
    fst (gen_sig w) = Ok (t, sig) /\
    compute_dft (fs w) (duree w) sig = Ok (freqs, tf) /\
    (freq w * INR (length sig) = INR m * fs w ->
     ~ (Z.of_nat (length sig) | 2 * Z.of_nat m)%Z ->
     forall (k : nat) (X : C), tf !! k = Some X ->
       ((Z.of_nat (length sig) | Z.of_nat k - Z.of_nat m)%Z ->
          X = mkC 0 (- (INR (length sig) / 2)) /\ Cabs X = INR (length sig) / 2) /\
       ((Z.of_nat (length sig) | Z.of_nat k + Z.of_nat m)%Z ->
          X = mkC 0 (INR (length sig) / 2) /\ Cabs X = INR (length sig) / 2) /\
       (~ (Z.of_nat (length sig) | Z.of_nat k - Z.of_nat m)%Z ->
        ~ (Z.of_nat (length sig) | Z.of_nat k + Z.of_nat m)%Z ->
          X = C0 /\ Cabs X = 0)).
Proof.
  intros Hfs Hd.
  exists (sample_times w), (samples w), (spectrum_freqs w), (spectrum_tf w).
  rewrite (gen_sig_run w Hfs). split; [reflexivity|].
  split; [apply compute_dft_ok; exact Hd|].
  intros Hcyc Hnyq k X Hk.
  assert (Hn0 : length (samples w) <> O).
  { intros H0. apply Hnyq. rewrite H0 in *. simpl in Hcyc.
    assert (Hm : INR m = INR 0) by (simpl; nra).
    apply INR_eq in Hm. subst m. exists 0%Z. reflexivity. }
  assert (Hne : samples w <> []) by (intros Hnil; apply Hn0; rewrite Hnil; reflexivity).
  destruct (dft_loop_spec (samples w) (spectrum_freqs w)) as [Hlen Hlk].
  unfold spectrum_tf in Hk.
  rewrite Hlk in Hk by (rewrite <- Hlen; eapply lookup_lt_Some; exact Hk).
  injection Hk as <-.
  rewrite dft_bin_direct_summation by exact Hne.
  rewrite (direct_summation_sinusoid w m k Hfs Hcyc Hne). cbv zeta.
  set (n := length (samples w)) in *.
  assert (Hpos : 0 <= INR n / 2) by (pose proof (pos_INR n); lra).
  set (jp := (Z.of_nat m + Z.of_nat k)%Z). set (jm := (Z.of_nat m - Z.of_nat k)%Z).
  assert (Hjp : (Z.of_nat n | jp)%Z <-> (Z.of_nat n | Z.of_nat k + Z.of_nat m)%Z).
  { unfold jp. rewrite Z.add_comm. reflexivity. }
  assert (Hjm : (Z.of_nat n | jm)%Z <-> (Z.of_nat n | Z.of_nat k - Z.of_nat m)%Z).
  { unfold jm. rewrite <- Z.divide_opp_r.
    replace (- (Z.of_nat m - Z.of_nat k))%Z with (Z.of_nat k - Z.of_nat m)%Z by lia.
    reflexivity. }
  assert (Hexcl : (Z.of_nat n | jp)%Z -> (Z.of_nat n | jm)%Z -> False).
  { intros H1 H2. apply Hnyq.
    replace (2 * Z.of_nat m)%Z with (jp + jm)%Z by (unfold jp, jm; lia).
    apply Z.divide_add_r; assumption. }
  rewrite <- Hjp, <- Hjm.
  split; [|split].
  - intros Hdm.
    assert (Hdp : ~ (Z.of_nat n | jp)%Z) by (intros H; exact (Hexcl H Hdm)).
    destruct (turn_sums_divisible n jm Hn0 Hdm) as [-> ->].
    destruct (turn_sums_nondivisible n jp Hn0 Hdp) as [-> ->].
    assert (E : mkC (/ 2 * 0 + / 2 * 0) (- / 2 * INR n + / 2 * 0) = mkC 0 (- (INR n / 2)))
      by (apply C_eq; simpl; field).
    rewrite E. split; [reflexivity|].
    rewrite Cabs_imaginary, Rabs_Ropp. apply Rabs_pos_eq. exact Hpos.
  - intros Hdp.
    assert (Hdm : ~ (Z.of_nat n | jm)%Z) by (intros H; exact (Hexcl Hdp H)).
    destruct (turn_sums_divisible n jp Hn0 Hdp) as [-> ->].
    destruct (turn_sums_nondivisible n jm Hn0 Hdm) as [-> ->].
    assert (E : mkC (/ 2 * 0 + / 2 * 0) (- / 2 * 0 + / 2 * INR n) = mkC 0 (INR n / 2))
      by (apply C_eq; simpl; field).
    rewrite E. split; [reflexivity|].
    rewrite Cabs_imaginary. apply Rabs_pos_eq. exact Hpos.
  - intros Hdm Hdp.
    destruct (turn_sums_nondivisible n jp Hn0 Hdp) as [-> ->].
    destruct (turn_sums_nondivisible n jm Hn0 Hdm) as [-> ->].
    assert (E : mkC (/ 2 * 0 + / 2 * 0) (- / 2 * 0 + / 2 * 0) = C0)
      by (apply C_eq; simpl; field).
    rewrite E. split; [reflexivity|apply Cabs_C0].
Qed.

Lemma spectrum_peaks_witness :
  exists t sig freqs tf,
    fst (gen_sig blank_window) = Ok (t, sig) /\
    compute_dft (fs blank_window) (duree blank_window) sig = Ok (freqs, tf) /\
    length sig = 150%nat /\
    forall (k : nat) (X : C), tf !! k = Some X ->
      ((Z.of_nat (length sig) | Z.of_nat k - Z.of_nat 3)%Z ->
         X = mkC 0 (- (INR (length sig) / 2)) /\ Cabs X = INR (length sig) / 2) /\
      ((Z.of_nat (length sig) | Z.of_nat k + Z.of_nat 3)%Z ->
         X = mkC 0 (INR (length sig) / 2) /\ Cabs X = INR (length sig) / 2) /\
      (~ (Z.of_nat (length sig) | Z.of_nat k - Z.of_nat 3)%Z ->
       ~ (Z.of_nat (length sig) | Z.of_nat k + Z.of_nat 3)%Z ->
         X = C0 /\ Cabs X = 0).
Proof.
  assert (Hfs : fs blank_window <> 0) by (simpl; lra).
  assert (Hd : duree blank_window <> 0) by (simpl; lra).
  destruct (spectrum_peaks blank_window 3 Hfs Hd) as (t & sig & freqs & tf & Hg & Hc & Hp).
  exists t, sig, freqs, tf. split; [exact Hg|]. split; [exact Hc|].
  assert (Hlen : length sig = 150%nat).
  { rewrite (gen_sig_run blank_window Hfs) in Hg. injection Hg as _ <-.
    rewrite samples_length. apply arange_len_integer.
    rewrite INR_IZR_INZ. change (Z.of_nat 150) with 150%Z. simpl. lra. }
  split; [exact Hlen|]. apply Hp.
  - rewrite Hlen, INR_IZR_INZ. change (Z.of_nat 150) with 150%Z. simpl. lra.
  - rewrite Hlen. change (Z.of_nat 150) with 150%Z. change (2 * Z.of_nat 3)%Z with 6%Z.
    intros [q Hq]. lia.
Defined.

(** * Further properties of the generated signal and of the time plot *)

(** X20. How [gen_sig] behaves at the edges.  A sample rate of zero is
    the only way it raises, with [ZeroDivisionError] and the object
    untouched; with a positive sample rate and a window duration that
    is zero or negative it returns an empty signal; and whenever it
    returns, there are as many amplitudes as time points and the object
    is untouched. *)
Theorem gen_sig_outcome (w : Aliasing_Window) :
  (fs w = 0 -> gen_sig w = (Err ZeroDivisionError, w)) /\
  (0 < fs w -> duree w <= 0 -> gen_sig w = (Ok ([], []), w)) /\
  (fs w <> 0 ->
     exists t sig, gen_sig w = (Ok (t, sig), w) /\ length sig = length t).
Proof.
  split; [apply gen_sig_raise|]. split.
  - intros Hfs Hd. rewrite gen_sig_run by lra.
    assert (Hlen : arange_len 0 (duree w) (1 / fs w) = O).
    { apply arange_len_nonpos.
      replace ((duree w - 0) / (1 / fs w)) with (duree w * fs w) by (field; lra).
      nra. }
    unfold samples, sample_times, np_arange. rewrite Hlen. reflexivity.
  - intros Hfs. exists (sample_times w), (samples w).
    split; [apply gen_sig_run; exact Hfs|].
    unfold samples. apply length_map.
Qed.

(** X21. In every state of the controller the arrays have the same
    sizes, whatever the frequency: [gen_sig] returns 150 time points and
    150 amplitudes, and [compute_dft] returns for them an axis of 450
    frequencies and 450 bins. *)
Theorem controller_array_sizes (w : Aliasing_Window) :
  reachable w ->
  exists t sig freqs tf,
    gen_sig w = (Ok (t, sig), w) /\
    compute_dft (fs w) (duree w) sig = Ok (freqs, tf) /\
    length t = 150%nat /\ length sig = 150%nat /\
    length freqs = 450%nat /\ length tf = 450%nat.
Proof.
  intros Hreach. destruct (reachable_rates w Hreach) as (Hfs & Hd & _ & _ & _).
  exists (sample_times w), (samples w), (spectrum_freqs w), (spectrum_tf w).
  split; [apply gen_sig_run; lra|]. split; [apply compute_dft_ok; lra|].
  assert (H150 : arange_len 0 (duree w) (1 / fs w) = 150%nat).
  { apply arange_len_integer. rewrite Hfs, Hd, INR_IZR_INZ.
    change (Z.of_nat 150) with 150%Z. lra. }
  assert (H450 : length (spectrum_freqs w) = 450%nat).
  { unfold spectrum_freqs. rewrite np_arange_length. apply arange_len_integer.
    rewrite Hfs, Hd, INR_IZR_INZ. change (Z.of_nat 450) with 450%Z. lra. }
  split; [unfold sample_times; rewrite np_arange_length; exact H150|].
  split; [rewrite samples_length; exact H150|].
  split; [exact H450|]. rewrite spectrum_tf_length. exact H450.
Qed.

Lemma controller_array_sizes_witness :
  exists t sig freqs tf,
    gen_sig initial_window = (Ok (t, sig), initial_window) /\
    compute_dft (fs initial_window) (duree initial_window) sig = Ok (freqs, tf) /\
    length t = 150%nat /\ length sig = 150%nat /\
    length freqs = 450%nat /\ length tf = 450%nat.
Proof.
  exact (controller_array_sizes initial_window (reach_init _ __init___run)).
Defined.

(** * The counts in double precision *)

Module DoubleRuns.
Import PrimFloat.
Local Open Scope float_scope.

(** On the controller's own inputs the double-precision count is the
    exact one: 150 time points and 450 frequencies, none reaching the
    stop value. *)
Lemma controller_counts :
  Double.length_of (Double.gen_sig_times 50 3) = Some 150%nat /\
  Double.ends_at (Double.gen_sig_times 50 3) 3 = false /\
  Double.length_of (Double.compute_dft_freqs 50 3) = Some 450%nat /\
  Double.ends_at (Double.compute_dft_freqs 50 3) 150 = false.
Proof. repeat split; vm_compute; reflexivity. Qed.


(** The same happens to the frequency axis, line 17, with a sample rate
    of 3 and a window of 49: 442 points, the last being [3*3]. *)
Lemma compute_dft_freqs_reach_stop :
  Double.length_of (Double.compute_dft_freqs 3 49) = Some 442%nat /\
  Double.ends_at (Double.compute_dft_freqs 3 49) 9 = true.
Proof. split; vm_compute; reflexivity. Qed.

End DoubleRuns.

(** * The export *)

(** A run of animation frames from a state of the controller returns,
    stays among the states of the controller, and ends at the last
    frame. *)
Lemma animation_run (l : list R) (w : Aliasing_Window) :
  reachable w ->
  exists w',
    for_each l animation_update w = (Ok tt, w') /\
    reachable w' /\
    (l = [] -> w' = w) /\
    (forall (p : list R) (v : R), l = p ++ [v] -> freq w' = v).
Proof.
  revert w. induction l as [|x l IH]; intros w Hreach.
  - exists w. split; [reflexivity|]. split; [exact Hreach|]. split; [reflexivity|].
    intros p v Hp. destruct p; discriminate.
  - destruct (animation_update_reachable w x Hreach) as (w1 & Hx & Hfx & Hr1).
    destruct (IH w1 Hr1) as (w' & Hrun & Hr' & Hnil & Hlast).
    exists w'. split.
    { change (for_each (x :: l) animation_update w)
        with (bind (animation_update x) (fun _ => for_each l animation_update) w).
      rewrite (bind_ok _ _ _ _ _ Hx). exact Hrun. }
    split; [exact Hr'|]. split; [discriminate|].
    intros p v Hp. destruct p as [|y p].
    + injection Hp as -> ->. rewrite (Hnil eq_refl). exact Hfx.
    + injection Hp as _ ->. apply (Hlast p v). reflexivity.
Qed.

(** C7, as stated, fails: when the library cannot start the encoder and
    raises its [FileNotFoundError], [animate] fails with that exception,
    which is not [ExportError]. *)
Lemma animate_export_error_counterexample :
  animate "aliasing.gif" 5
    (fun _ _ _ => mkSaveRun [] (Err (Raised "FileNotFoundError")) NoFile)
    initial_window
  = (Err (Raised "FileNotFoundError"), initial_window, NoFile) /\
  Err (Raised "FileNotFoundError") <> @Err unit ExportError.
Proof. split; [reflexivity|discriminate]. Qed.

(** C7, amended. For every output path and frame rate, from every state
    of the controller, [animate] hands the library 50 frames, linearly
    spaced from [f_min] to [f_max]; each frame the library renders is an
    [update] transition, none of which raises, so that the controller
    ends at the last frame rendered, [f_max] after a whole sweep;
    [animate] then returns if the library's [save] returned and raises
    the very exception [save] raised, there being no [ExportError]; and
    the output file is left as the library left it, partial or not. *)
Theorem animate_outcome (filename : string) (fps : Z)
    (an_save : list R -> string -> Z -> save_run) (w : Aliasing_Window) :
  reachable w ->
  let run := an_save (animation_frames w) filename fps in
  length (animation_frames w) = 50%nat /\
  (forall i : nat, (i < 50)%nat ->
     animation_frames w !! i = Some (f_min w + INR i * ((f_max w - f_min w) / 49))) /\
  exists w',
    animate filename fps an_save w = (save_result run, w', file_left run) /\
    reachable w' /\
    (rendered run = [] -> w' = w) /\
    (forall (p : list R) (v : R), rendered run = p ++ [v] -> freq w' = v) /\
    (rendered run = animation_frames w -> freq w' = f_max w).
Proof.
  intros Hreach run.
  destruct (animation_frames_linear w) as (Hlen & Hlk & _ & H49).
  split; [exact Hlen|]. split; [exact Hlk|].
  destruct (animation_run (rendered run) w Hreach) as (w' & Hrun & Hr' & Hnil & Hlast).
  exists w'. split.
  { unfold animate. fold run. rewrite (bind_ok _ _ _ _ _ Hrun). reflexivity. }
  split; [exact Hr'|]. split; [exact Hnil|]. split; [exact Hlast|].
  intros Hall. apply (Hlast (take 49 (animation_frames w))).
  rewrite Hall. rewrite <- (take_drop 49 (animation_frames w)) at 1. f_equal.
  apply list_eq. intros i. rewrite lookup_drop. destruct i as [|i].
  - rewrite Nat.add_0_r. exact H49.
  - rewrite lookup_ge_None_2 by (rewrite Hlen; lia). reflexivity.
Qed.

Lemma animate_outcome_witness :
  exists w',
    animate "aliasing.gif" 5 (fun frames _ _ => mkSaveRun frames (Ok tt) CompleteFile)
      initial_window
    = (Ok tt, w', CompleteFile) /\
    reachable w' /\ freq w' = 150.
Proof.
  assert (Hreach : reachable initial_window) by (exact (reach_init _ __init___run)).
  destruct (animate_outcome "aliasing.gif" 5
              (fun frames _ _ => mkSaveRun frames (Ok tt) CompleteFile)
              initial_window Hreach)
    as (_ & _ & w' & Hrun & Hr' & _ & _ & Hall).
  exists w'. split; [exact Hrun|]. split; [exact Hr'|]. exact (Hall eq_refl).
Defined.
